(** * core-js-101, objects tasks: a shallow embedding of [src/05-objects-tasks.js]

    The file follows the source top to bottom: [Rectangle], [getJSON],
    [fromJSON], then the CSS selector builder ([MyCssSelector] and the
    [cssSelectorBuilder] facade).  JavaScript objects that are mutated in
    place live in an explicit store; a function is a computation over that
    store which either returns a value or throws.  The definitions come
    first, then the vocabulary of the statements, then the proofs. *)

From Stdlib Require Import ZArith String Ascii Floats.
From stdpp Require Import base option list relations sorting gmap strings pretty.

Local Open Scope string_scope.
Local Open Scope list_scope.
Local Open Scope Z_scope.

(** ** Exceptions, outcomes, and computations over a store *)

(** The exceptions that occur: [new Error(message)], thrown by [validate],
    and the engine's own [TypeError] and [SyntaxError]. *)
Inductive exn : Type :=
  | Error (message : string)
  | TypeError (message : string)
  | SyntaxError (message : string).

(** How a call ends.  [Beyond] marks a run that leaves the part of
    JavaScript modelled here (the cases are named where they arise); it is
    neither a return nor a throw, and nothing is claimed about such a run. *)
Inductive outcome (A : Type) : Type :=
  | Return (a : A)
  | Throw (e : exn)
  | Beyond.
Arguments Return {A} a.
Arguments Throw {A} e.
Arguments Beyond {A}.

(** A computation over a store [S].  The store is threaded through a throw:
    whatever was written before the exception stays written. *)
Definition M (S A : Type) : Type := S → outcome A * S.

Definition ret {S A} (a : A) : M S A := λ h, (Return a, h).
Definition throw {S A} (e : exn) : M S A := λ h, (Throw e, h).
Definition bind {S A B} (c : M S A) (k : A → M S B) : M S B :=
  λ h, match c h with
       | (Return a, h') => k a h'
       | (Throw e, h') => (Throw e, h')
       | (Beyond, h') => (Beyond, h')
       end.

Notation "'let!' x ':=' c 'in' k" := (bind c (λ x, k))
  (at level 10, x name, c at level 100, k at level 200).
Notation "'do!' c 'in' k" := (bind c (λ _, k))
  (at level 10, c at level 100, k at level 200).

(** A location of an object in a store. *)
Abbreviation loc := nat (only parsing).

(** ** [Rectangle] *)

(** The object [Rectangle] returns: its [width] and [height] fields, which
    the caller may assign to, and the method [getArea].  Numbers are IEEE 754
    doubles. *)
Record RectangleObject : Type := mkRectangle { width : float; height : float }.

(** [getArea() { return this.width * this.height; }] *)
Definition getArea (this : RectangleObject) : float :=
  (width this * height this)%float.

(** [function Rectangle(width, height)]: called with or without [new], it
    returns the object literal. *)
Definition Rectangle (width' height' : float) : RectangleObject :=
  {| width := width'; height := height' |}.

(** The caller's [r.width = x] and [r.height = x]. *)
Definition set_width (x : float) (r : RectangleObject) : RectangleObject :=
  {| width := x; height := height r |}.
Definition set_height (x : float) (r : RectangleObject) : RectangleObject :=
  {| width := width r; height := x |}.

(** ** JavaScript values and objects for the JSON helpers

    The part of JavaScript modelled: primitives, functions (opaque, with no
    properties of their own), arrays without holes, and objects with
    enumerable data properties keyed by strings, made by an object literal,
    by [JSON.parse] or by a constructor.  A string is the sequence of its
    code units, each below 256.  Outside this part are accessors, symbols,
    wrapper objects, BigInt, and prototypes that define [toJSON] or
    accessors of their own. *)
Inductive jsval : Type :=
  | JUndefined
  | JNull
  | JBoolean (b : bool)
  | JNumber (x : float)
  | JString (s : string)
  | JFunction
  | JObject (l : loc).

(** An object of the store.  [props] lists the own properties in the order
    the engine enumerates them; [kind] names the constructor whose prototype
    the object has. *)
Inductive object : Type :=
  | Plain (kind : string) (props : list (string * jsval))
  | Array (elems : list jsval).

Abbreviation store := (list object) (only parsing).

(** What [JSON.parse] reads off a text, before the objects are allocated:
    the members of an object in the order of the text, repeated keys
    included. *)
#[warnings="-register-all"]
Inductive tree : Type :=
  | TNull
  | TBoolean (b : bool)
  | TNumber (x : float)
  | TString (s : string)
  | TArray (elems : list tree)
  | TObject (members : list (string * tree)).

(** The two built-ins of the engine that are taken as given: the decimal
    text of a finite number ([Number::toString]) and the grammar of
    [JSON.parse].  A description may be partial: where it is silent
    ([None], [Beyond]) the run is [Beyond]. *)
Record Host : Type := mkHost {
  Number_toString : float → option string;
  JSON_parse : string → outcome tree
}.

Definition alloc (o : object) : M store jsval :=
  λ h, (Return (JObject (length h)), h ++ [o]).

(** *** Own properties *)

Fixpoint lookup_prop (k : string) (props : list (string * jsval)) : option jsval :=
  match props with
  | [] => None
  | (k', v) :: props' => if bool_decide (k' = k) then Some v else lookup_prop k props'
  end.

Fixpoint digits_to_N (acc : N) (s : string) : option N :=
  match s with
  | EmptyString => Some acc
  | String c s' =>
      let d := N_of_ascii c in
      if ((48 <=? d) && (d <=? 57))%N
      then digits_to_N (10 * acc + (d - 48))%N s'
      else None
  end.

(** An array index: the canonical decimal text of an integer below
    [2^32 - 1]. *)
Definition array_index (k : string) : option N :=
  match digits_to_N 0 k with
  | Some n => if bool_decide (pretty n = k) && (n <? 4294967295)%N then Some n else None
  | None => None
  end.

(** The place of a new array index among the own properties: array indices
    come first, in ascending order. *)
Fixpoint insert_index (n : N) (k : string) (v : jsval)
    (props : list (string * jsval)) : list (string * jsval) :=
  match props with
  | [] => [(k, v)]
  | (k', v') :: props' =>
      match array_index k' with
      | Some n' =>
          if (n' <? n)%N then (k', v') :: insert_index n k v props'
          else (k, v) :: props
      | None => (k, v) :: props
      end
  end.

Fixpoint update_prop (k : string) (v : jsval)
    (props : list (string * jsval)) : list (string * jsval) :=
  match props with
  | [] => []
  | (k', v') :: props' =>
      if bool_decide (k' = k) then (k, v) :: props'
      else (k', v') :: update_prop k v props'
  end.

(** Writing a data property: an existing one keeps its place, a new one is
    enumerated after the others, or among the array indices if it is one. *)
Definition set_prop (k : string) (v : jsval)
    (props : list (string * jsval)) : list (string * jsval) :=
  match lookup_prop k props with
  | Some _ => update_prop k v props
  | None =>
      match array_index k with
      | Some n => insert_index n k v props
      | None => props ++ [(k, v)]
      end
  end.

Definition set_props (entries props : list (string * jsval)) : list (string * jsval) :=
  foldl (λ ps kv, set_prop kv.1 kv.2 ps) props entries.

Fixpoint code_units (s : string) : list string :=
  match s with
  | EmptyString => []
  | String c s' => String c EmptyString :: code_units s'
  end.

(** The own enumerable string-keyed properties of a value taken as an
    object, in enumeration order; [None] for a location outside the store. *)
Definition own_enumerable (h : store) (v : jsval) : option (list (string * jsval)) :=
  match v with
  | JObject l =>
      match h !! l with
      | Some (Plain _ props) => Some props
      | Some (Array elems) => Some (imap (λ i e, (pretty i, e)) elems)
      | None => None
      end
  | JString s => Some (imap (λ i c, (pretty i, JString c)) (code_units s))
  | _ => Some []
  end.

(** *** [JSON.stringify] (ECMA-262, 25.5.2, without replacer and gap) *)

Definition hex_digit (n : N) : ascii :=
  if (n <? 10)%N then ascii_of_N (48 + n) else ascii_of_N (87 + n).

(** One code unit inside a quoted string. *)
Definition quote_code_unit (c : ascii) : string :=
  let n := N_of_ascii c in
  if (n =? 8)%N then "\b"
  else if (n =? 9)%N then "\t"
  else if (n =? 10)%N then "\n"
  else if (n =? 12)%N then "\f"
  else if (n =? 13)%N then "\r"
  else if (n =? 34)%N then String "\" (String "034" EmptyString)
  else if (n =? 92)%N then "\\"
  else if (n <? 32)%N
       then "\u00" +:+ String (hex_digit (n / 16)) (String (hex_digit (n mod 16)) EmptyString)
  else String c EmptyString.

Fixpoint quote_code_units (s : string) : string :=
  match s with
  | EmptyString => EmptyString
  | String c s' => quote_code_unit c +:+ quote_code_units s'
  end.

Definition QuoteJSONString (s : string) : string :=
  String "034" (quote_code_units s +:+ String "034" EmptyString).

(** A property named [toJSON] that holds a function would be called; what
    a function does is not modelled. *)
Definition callable_toJSON (props : list (string * jsval)) : bool :=
  match lookup_prop "toJSON" props with
  | Some JFunction => true
  | _ => false
  end.

(** The members of an object from the serialized property values, in
    order: an [undefined] value leaves its property out, the first abrupt
    completion ends the serialization. *)
Fixpoint members_text (l : list (string * outcome (option string)))
    : outcome (list string) :=
  match l with
  | [] => Return []
  | (k, r) :: l' =>
      match r with
      | Return None => members_text l'
      | Return (Some s) =>
          match members_text l' with
          | Return ms => Return ((QuoteJSONString k +:+ ":" +:+ s) :: ms)
          | Throw e => Throw e
          | Beyond => Beyond
          end
      | Throw e => Throw e
      | Beyond => Beyond
      end
  end.

(** The elements of an array: an [undefined] value is written [null]. *)
Fixpoint elements_text (l : list (outcome (option string))) : outcome (list string) :=
  match l with
  | [] => Return []
  | r :: l' =>
      match r with
      | Return o =>
          match elements_text l' with
          | Return ms => Return (default "null" o :: ms)
          | Throw e => Throw e
          | Beyond => Beyond
          end
      | Throw e => Throw e
      | Beyond => Beyond
      end
  end.

Definition wrap (open close : string) (r : outcome (list string))
    : outcome (option string) :=
  match r with
  | Return ms => Return (Some (open +:+ String.concat "," ms +:+ close))
  | Throw e => Throw e
  | Beyond => Beyond
  end.

Definition circular_message : string := "Converting circular structure to JSON".

(** [SerializeJSONProperty], on the value already read from its holder,
    with [SerializeJSONObject] and [SerializeJSONArray] inlined; [stack]
    holds the objects being serialized around the value.  The recursion
    goes as deep as objects nest, which the stack check bounds by the size
    of the store: [fuel] counts it down. *)
Fixpoint SerializeJSONProperty (host : Host) (fuel : nat) (h : store)
    (stack : list loc) (v : jsval) : outcome (option string) :=
  match fuel with
  | O => Beyond
  | S fuel' =>
      match v with
      | JUndefined | JFunction => Return None
      | JNull => Return (Some "null")
      | JBoolean true => Return (Some "true")
      | JBoolean false => Return (Some "false")
      | JString s => Return (Some (QuoteJSONString s))
      | JNumber x =>
          if is_finite x
          then match Number_toString host x with
               | Some s => Return (Some s)
               | None => Beyond
               end
          else Return (Some "null")
      | JObject l =>
          match h !! l with
          | None => Beyond
          | Some (Plain _ props) =>
              if callable_toJSON props then Beyond
              else if bool_decide (l ∈ stack) then Throw (TypeError circular_message)
              else wrap "{" "}"
                     (members_text
                        (map (λ kv, (kv.1, SerializeJSONProperty host fuel' h (l :: stack) kv.2))
                             props))
          | Some (Array elems) =>
              if bool_decide (l ∈ stack) then Throw (TypeError circular_message)
              else wrap "[" "]"
                     (elements_text
                        (map (SerializeJSONProperty host fuel' h (l :: stack)) elems))
          end
      end
  end.

(** [JSON.stringify(value)]: a string, or [undefined]. *)
Definition JSON_stringify (host : Host) (h : store) (v : jsval) : outcome jsval :=
  match SerializeJSONProperty host (S (length h)) h [] v with
  | Return (Some s) => Return (JString s)
  | Return None => Return JUndefined
  | Throw e => Throw e
  | Beyond => Beyond
  end.

(** ** [getJSON] *)

(** [function getJSON(obj) { return JSON.stringify(obj); }] *)
Definition getJSON (host : Host) (obj : jsval) : M store jsval :=
  λ h, (JSON_stringify host h obj, h).

(** ** [fromJSON] *)

(** Allocating what [JSON.parse] has read: every object and array is a new
    one, and a member defines a data property of its object, a repeated key
    overwriting the earlier value. *)
Definition materialize_elements (f : tree → M store jsval)
    : list tree → M store (list jsval) :=
  fix go l :=
    match l with
    | [] => ret []
    | t :: l' =>
        let! v := f t in
        let! vs := go l' in
        ret (v :: vs)
    end.

Definition materialize_members (f : tree → M store jsval)
    : list (string * tree) → M store (list (string * jsval)) :=
  fix go l :=
    match l with
    | [] => ret []
    | (k, t) :: l' =>
        let! v := f t in
        let! kvs := go l' in
        ret ((k, v) :: kvs)
    end.

Fixpoint materialize (t : tree) : M store jsval :=
  match t with
  | TNull => ret JNull
  | TBoolean b => ret (JBoolean b)
  | TNumber x => ret (JNumber x)
  | TString s => ret (JString s)
  | TArray elems =>
      let! vs := materialize_elements materialize elems in
      alloc (Array vs)
  | TObject members =>
      let! kvs := materialize_members materialize members in
      alloc (Plain "Object" (set_props kvs []))
  end.

(** [JSON.parse(json)] *)
Definition JSON_parse_value (host : Host) (json : string) : M store jsval :=
  match JSON_parse host json with
  | Return t => materialize t
  | Throw e => throw e
  | Beyond => λ h, (Beyond, h)
  end.

(** [Object.assign(target, source)] for a target made by a constructor:
    each own enumerable property of the source is written to the target.
    Writing the key [__proto__] would run the accessor of
    [Object.prototype] and replace the prototype; that is not modelled. *)
Definition Object_assign (target source : jsval) : M store jsval :=
  λ h,
    match target with
    | JObject l =>
        match h !! l, own_enumerable h source with
        | Some (Plain kind props), Some entries =>
            if bool_decide ("__proto__" ∈ entries.*1) then (Beyond, h)
            else (Return target, <[l := Plain kind (set_props entries props)]> h)
        | _, _ => (Beyond, h)
        end
    | _ => (Beyond, h)
    end.

(** A constructor, as far as [new proto.constructor()] shows: its name and
    the own data properties a call without arguments leaves on the new
    object.  Constructors that throw, return another object or do anything
    else are not modelled. *)
Record Constructor : Type := mkConstructor {
  name : string;
  initial : list (string * jsval)
}.

(** A prototype object, with its [constructor] property. *)
Record Prototype : Type := mkPrototype { constructor : Constructor }.

(** [new C()] *)
Definition new_object (C : Constructor) : M store jsval :=
  alloc (Plain (name C) (initial C)).

(** [function fromJSON(proto, json)] *)
Definition fromJSON (host : Host) (proto : Prototype) (json : string) : M store jsval :=
  let! obj := new_object (constructor proto) in
  let! parsed := JSON_parse_value host json in
  do! Object_assign obj parsed in
  ret obj.

(** ** The CSS selector builder *)

(** The values [add] receives and stores: a string (a selector part or a
    combinator token), or another builder (the right operand of [combine]).
    The builders live in a store of their own. *)
Inductive Operand : Type :=
  | Str (s : string)
  | Obj (r : loc).

(** String conversion, as done by a template literal and by [Array.join]:
    a builder has no [toString] of its own. *)
Definition ToString (v : Operand) : string :=
  match v with
  | Str s => s
  | Obj _ => "[object Object]"
  end.

(** [MyCssSelector.ITEM_TYPES] *)
Module ITEM_TYPES.
Definition ELEMENT : Z := 0.
Definition ID : Z := 1.
Definition CLASS : Z := 2.
Definition ATTR : Z := 3.
Definition PSEUDO_CLASS : Z := 4.
Definition PSEUDO_ELEMENT : Z := 5.
Definition COMBINATOR : Z := 6.
Definition SELECTOR : Z := 7.
End ITEM_TYPES.

(** An element of [this.items]: [{ value, type }]. *)
Record Item : Type := mkItem { value : Operand; type : Z }.

(** The fields of a [MyCssSelector] instance.  Every instance is made by
    [new MyCssSelector()] with the default [items = []], so no two
    instances share their [items] array and the array is kept inside the
    instance. *)
Record Instance : Type := mkInstance {
  items : list Item;
  disposableTypes : list Z
}.

Abbreviation heap := (list Instance) (only parsing).

(** The messages of the two errors of [validate]. *)
Definition duplicate_message : string :=
  "Element, id and pseudo-element should not occur more then one time inside the selector".
Definition order_message : string :=
  "Selector parts should be arranged in the following order: element, id, class, attribute, pseudo-class, pseudo-element".

(** The spec's names for them. *)
Definition DuplicateSelectorPartError : exn := Error duplicate_message.
Definition SelectorOrderError : exn := Error order_message.

Module MyCssSelector.
Import ITEM_TYPES.

(** [constructor(items = [])], called as [new MyCssSelector()]. *)
Definition new : M heap loc :=
  λ h, (Return (length h),
        h ++ [ {| items := []; disposableTypes := [ELEMENT; ID; PSEUDO_ELEMENT] |} ]).

(** Reading [this].  A location outside the store stands for no object:
    no JavaScript program holds one. *)
Definition read (this : loc) : M heap Instance :=
  λ h, match h !! this with
       | Some o => (Return o, h)
       | None => (Beyond, h)
       end.

(** [this.items.push(...xs)] *)
Definition push (this : loc) (xs : list Item) : M heap () :=
  λ h, match h !! this with
       | Some o =>
           (Return (),
            <[this := {| items := items o ++ xs;
                         disposableTypes := disposableTypes o |}]> h)
       | None => (Beyond, h)
       end.

(** [!acc[t]]: the entry is missing or is the number 0. *)
Definition falsy (x : option nat) : bool :=
  match x with
  | None | Some O => true
  | Some (S _) => false
  end.

(** The [reduce] of [validate]: for every disposable type, the number of
    items of that type. *)
Definition typesCounter (o : Instance) : gmap Z nat :=
  foldl (λ acc t,
           let acc := if falsy (acc !! t) then <[t := 0%nat]> acc else acc in
           <[t := length (filter (λ item, type item = t) (items o))]> acc)
        ∅ (disposableTypes o).

(** [validate(type)] on the fields of [this]. *)
Definition validate (o : Instance) (type' : Z) : outcome () :=
  if bool_decide (type' ∈ disposableTypes o)
     && bool_decide (typesCounter o !! type' = Some 1%nat)
  then Throw (Error duplicate_message)
  else
    match last (items o) with
    | Some lastItem =>
        if type' <? type lastItem
        then Throw (Error order_message)
        else Return ()
    | None => Return ()
    end.

(** The [switch] of [add]. *)
Definition newValue (value' : Operand) (type' : Z) : Operand :=
  if type' =? ID then Str ("#" +:+ ToString value')
  else if type' =? CLASS then Str ("." +:+ ToString value')
  else if type' =? ATTR then Str ("[" +:+ ToString value' +:+ "]")
  else if type' =? PSEUDO_CLASS then Str (":" +:+ ToString value')
  else if type' =? PSEUDO_ELEMENT then Str ("::" +:+ ToString value')
  else if type' =? COMBINATOR then Str (" " +:+ ToString value' +:+ " ")
  else value'.

(** [add(value, type)] *)
Definition add (this : loc) (value' : Operand) (type' : Z) : M heap loc :=
  do! (if negb (type' =? SELECTOR)
       then let! o := read this in (λ h, (validate o type', h))
       else ret ()) in
  do! (if type' =? SELECTOR
   then match newValue value' type' with
        | Obj r => let! o := read r in push this (items o)
        | Str _ => throw (TypeError "Spread syntax requires ...iterable[Symbol.iterator] to be a function")
        end
   else push this [ {| value := newValue value' type'; type := type' |} ]) in
  ret this.

(** [Array.prototype.join] *)
Fixpoint join (sep : string) (l : list Operand) : string :=
  match l with
  | [] => ""
  | x :: l' =>
      match l' with
      | [] => ToString x
      | _ :: _ => ToString x +:+ sep +:+ join sep l'
      end
  end.

(** [stringify()] *)
Definition stringify (this : loc) : M heap string :=
  let! o := read this in ret (join "" (map value (items o))).
End MyCssSelector.

(** The object a facade method is invoked on: the exported
    [cssSelectorBuilder] itself, or a [MyCssSelector] instance, which
    inherits the facade's methods through [ICssBuilder.prototype]. *)
Inductive receiver : Type :=
  | Facade
  | Inst (r : loc).

Module cssSelectorBuilder.
Import ITEM_TYPES.

(** [cssSelectorBuilder.add] *)
Definition add (this : receiver) (value' : Operand) (type' : Z) : M heap loc :=
  match this with
  | Facade => let! r := MyCssSelector.new in MyCssSelector.add r value' type'
  | Inst r => ret r
  end.

(** [this.add(...)]: the class's own [add] shadows the inherited one. *)
Definition this_add (this : receiver) (value' : Operand) (type' : Z) : M heap loc :=
  match this with
  | Facade => add Facade value' type'
  | Inst r => MyCssSelector.add r value' type'
  end.

Definition element (this : receiver) (value' : string) : M heap loc :=
  this_add this (Str value') ELEMENT.
Definition id (this : receiver) (value' : string) : M heap loc :=
  this_add this (Str value') ID.
Definition class (this : receiver) (value' : string) : M heap loc :=
  this_add this (Str value') CLASS.
Definition attr (this : receiver) (value' : string) : M heap loc :=
  this_add this (Str value') ATTR.
Definition pseudoClass (this : receiver) (value' : string) : M heap loc :=
  this_add this (Str value') PSEUDO_CLASS.
Definition pseudoElement (this : receiver) (value' : string) : M heap loc :=
  this_add this (Str value') PSEUDO_ELEMENT.

(** [combine(selector1, combinator, selector2)] *)
Definition combine (selector1 : loc) (combinator : string) (selector2 : loc)
  : M heap loc :=
  let! r := MyCssSelector.add selector1 (Str combinator) COMBINATOR in
  MyCssSelector.add r (Obj selector2) SELECTOR.
End cssSelectorBuilder.

(** ** Vocabulary for the statements about the builder *)

(** The six appending methods of the facade. *)
Inductive part : Type :=
  | element_part | id_part | class_part | attr_part
  | pseudoClass_part | pseudoElement_part.

Definition append (p : part) : receiver → string → M heap loc :=
  match p with
  | element_part => cssSelectorBuilder.element
  | id_part => cssSelectorBuilder.id
  | class_part => cssSelectorBuilder.class
  | attr_part => cssSelectorBuilder.attr
  | pseudoClass_part => cssSelectorBuilder.pseudoClass
  | pseudoElement_part => cssSelectorBuilder.pseudoElement
  end.

(** The type each method passes to [add]. *)
Definition part_type (p : part) : Z :=
  match p with
  | element_part => ITEM_TYPES.ELEMENT
  | id_part => ITEM_TYPES.ID
  | class_part => ITEM_TYPES.CLASS
  | attr_part => ITEM_TYPES.ATTR
  | pseudoClass_part => ITEM_TYPES.PSEUDO_CLASS
  | pseudoElement_part => ITEM_TYPES.PSEUDO_ELEMENT
  end.

(** The singleton kinds of the spec. *)
Definition singleton (p : part) : bool :=
  match p with
  | element_part | id_part | pseudoElement_part => true
  | _ => false
  end.

(** The rendering table as the spec words it: id is [#name], class is
    [.name], attribute is [[expr]], pseudoClass is [:name], pseudoElement is
    [::name], element is the bare name. *)
Definition render_spec (p : part) (name : string) : string :=
  match p with
  | element_part => name
  | id_part => "#" +:+ name
  | class_part => "." +:+ name
  | attr_part => "[" +:+ name +:+ "]"
  | pseudoClass_part => ":" +:+ name
  | pseudoElement_part => "::" +:+ name
  end.

(** The combinator fragment [combine] inserts, as the spec words it: the
    token padded with single spaces. *)
Definition combinator_item (t : string) : Item :=
  {| value := Str (" " +:+ t +:+ " "); type := ITEM_TYPES.COMBINATOR |}.

(** The number of items of a type. *)
Definition count_type (t : Z) (l : list Item) : nat :=
  length (filter (λ item, type item = t) l).

(** The rendered texts of a sequence of parts, one after the other with
    nothing in between. *)
Definition rendered (l : list (part * string)) : string :=
  foldr (λ pv s, render_spec pv.1 pv.2 +:+ s) "" l.

(** A chain of appends [this.p1(v1).p2(v2)...]. *)
Fixpoint chain (this : receiver) (l : list (part * string)) : M heap receiver :=
  match l with
  | [] => ret this
  | (p, v) :: l' => let! r := append p this v in chain (Inst r) l'
  end.

(** Programs used as examples below. *)
Module examples.
Import cssSelectorBuilder.

(** [id('a')] and [id('b')] combined: the result holds two ids. *)
Definition two_ids_combined : M heap loc :=
  let! a := id Facade "a" in
  let! b := id Facade "b" in
  combine a " " b.

(** [element('a').id('b')] *)
Definition element_then_id : M heap loc :=
  let! a := element Facade "a" in
  id (Inst a) "b".

(** [id('x')] and [class('a')], each on its own. *)
Definition only_id : M heap loc := id Facade "x".
Definition only_class : M heap loc := class Facade "a".

(** [id('main').class('container').class('editable').stringify()] *)
Definition main_container_editable : M heap string :=
  let! a := id Facade "main" in
  let! b := class (Inst a) "container" in
  let! c := class (Inst b) "editable" in
  MyCssSelector.stringify c.

(** The text [href$=".png"], with its two double quotes. *)
Definition href_png : string :=
  "href$=" +:+ String "034" ".png" +:+ String "034" "".

(** [element('a').attr('href$=".png"').pseudoClass('focus').stringify()] *)
Definition a_href_focus : M heap string :=
  let! a := element Facade "a" in
  let! b := attr (Inst a) href_png in
  let! c := pseudoClass (Inst b) "focus" in
  MyCssSelector.stringify c.

(** [combine(element('div').id('main'), '+', element('table').id('data')).stringify()] *)
Definition div_plus_table : M heap string :=
  let! a := element Facade "div" in
  let! a := id (Inst a) "main" in
  let! b := element Facade "table" in
  let! b := id (Inst b) "data" in
  let! c := combine a "+" b in
  MyCssSelector.stringify c.

(** [const s = element('a'); combine(s, '+', s)] *)
Definition self_combined : M heap loc :=
  let! s := element Facade "a" in
  combine s "+" s.
End examples.

(** The calls a client can make, and the stores they can produce. *)
Inductive call : Type :=
  | call_append (p : part) (this : receiver) (v : string)
  | call_combine (selector1 : loc) (combinator : string) (selector2 : loc).

Definition run_call (c : call) : M heap loc :=
  match c with
  | call_append p this v => append p this v
  | call_combine s1 t s2 => cssSelectorBuilder.combine s1 t s2
  end.

(** A client only holds builders that exist. *)
Definition in_store (h : heap) (c : call) : Prop :=
  match c with
  | call_append _ Facade _ => True
  | call_append _ (Inst r) _ => (r < length h)%nat
  | call_combine s1 _ s2 => (s1 < length h)%nat ∧ (s2 < length h)%nat
  end.

(** The stores reachable from the empty one through the facade: the
    validly built builders. *)
Inductive built : heap → Prop :=
  | built_empty : built []
  | built_call h c : built h → in_store h c → built (snd (run_call c h)).

(** Two stores used as examples: [element('div')] alone, and together with
    [element('table')]. *)
Definition store_div : heap :=
  snd (cssSelectorBuilder.element Facade "div" []).
Definition store_div_table : heap :=
  snd (cssSelectorBuilder.element Facade "table" store_div).

(** What holds of every instance in a reachable store. *)
Definition wf_instance (o : Instance) : Prop :=
  disposableTypes o = [0; 1; 5] ∧ Forall (λ item, 0 ≤ type item ≤ 6) (items o).

Definition wf (h : heap) : Prop := Forall wf_instance h.

(** ** Vocabulary for the statements about the JSON helpers *)

(** The decimal text of an integer-valued double below [2^53] in absolute
    value, where the shortest digits that read back as the number are the
    digits of the integer itself. *)
Definition integral_text (x : float) : option string :=
  match Prim2SF x with
  | S754_zero _ => Some "0"
  | S754_finite s m e =>
      let z := if 0 <=? e then Some (Z.pos m * 2 ^ e)
               else if Z.pos m mod 2 ^ (- e) =? 0 then Some (Z.pos m / 2 ^ (- e))
               else None in
      match z with
      | Some z =>
          if z <? 2 ^ 53
          then Some ((if s then "-" else "") +:+ pretty z)
          else None
      | None => None
      end
  | _ => None
  end.

(** The text [{"radius":10}], with its two double quotes. *)
Definition radius_10_text : string :=
  "{" +:+ String "034" "radius" +:+ String "034" ":10}".

(** A partial description of the engine, enough for the examples: it
    prints integers and reads two texts. *)
Definition example_host : Host :=
  {| Number_toString := integral_text;
     JSON_parse := λ json,
       if bool_decide (json = "{}") then Return (TObject [])
       else if bool_decide (json = radius_10_text)
            then Return (TObject [("radius", TNumber 10%float)])
            else Beyond |}.

(** [function Circle(radius) { this.radius = radius; }], the kind of the
    source's own example: called without arguments it leaves [radius]
    undefined on the new object. *)
Definition Circle : Constructor :=
  {| name := "Circle"; initial := [("radius", JUndefined)] |}.
Definition Circle_prototype : Prototype := {| constructor := Circle |}.

(** [const o = {}; o.self = o]: an object that contains itself. *)
Definition store_self : store := [Plain "Object" [("self", JObject 0%nat)]].

(** [{ width: 10, height: 20, tags: ['a', undefined], f() {} }] at
    location 0, its array at location 1. *)
Definition store_sample : store :=
  [ Plain "Object" [("width", JNumber 10%float); ("height", JNumber 20%float);
                    ("tags", JObject 1%nat); ("f", JFunction)];
    Array [JString "a"; JUndefined] ].

(** The keys of the own enumerable properties of what a text denotes. *)
Definition tree_keys (t : tree) : list string :=
  match t with
  | TObject members => members.*1
  | TArray elems => imap (λ i _, pretty i) elems
  | TString s => imap (λ i _, pretty i) (code_units s)
  | _ => []
  end.

(** The own properties of the object a value denotes. *)
Definition props_of (h : store) (v : jsval) : option (list (string * jsval)) :=
  match v with
  | JObject l =>
      match h !! l with
      | Some (Plain _ props) => Some props
      | _ => None
      end
  | _ => None
  end.

(** The kind of the object a value denotes. *)
Definition kind_of (h : store) (v : jsval) : option string :=
  match v with
  | JObject l =>
      match h !! l with
      | Some (Plain kind _) => Some kind
      | _ => None
      end
  | _ => None
  end.

(** The values an object holds. *)
Definition held (o : object) : list jsval :=
  match o with
  | Plain _ props => props.*2
  | Array elems => elems
  end.

(** [l'] is held directly by the object at [l]. *)
Definition holds (h : store) (l l' : loc) : Prop :=
  ∃ o, h !! l = Some o ∧ JObject l' ∈ held o.

(** A value contains a cyclic reference: from it one reaches an object
    that, through one or more steps, holds itself. *)
Definition cyclic (h : store) (v : jsval) : Prop :=
  ∃ l0 l, v = JObject l0 ∧ rtc (holds h) l0 l ∧ tc (holds h) l l.

(** The serialized values of what an object holds, with the object on the
    stack. *)
Definition held_results (host : Host) (n : nat) (h : store) (st : list loc)
    (l : loc) (o : object) : list (outcome (option string)) :=
  SerializeJSONProperty host n h (l :: st) <$> held o.

(** A store within the modelled part, for a host: every held location is
    in the store, no object has a callable [toJSON], and the host prints
    every finite number that occurs. *)
Definition printable (host : Host) (v : jsval) : Prop :=
  match v with
  | JNumber x => is_finite x = true → is_Some (Number_toString host x)
  | _ => True
  end.

Definition modelled_object (host : Host) (h : store) (o : object) : Prop :=
  (∀ l, JObject l ∈ held o → (l < length h)%nat)
  ∧ Forall (printable host) (held o)
  ∧ match o with
    | Plain _ props => callable_toJSON props = false
    | Array _ => True
    end.

Definition modelled (host : Host) (h : store) : Prop :=
  Forall (modelled_object host h) h.

(** ** Vocabulary for further statements about the builder *)

(** The fragment a facade method appends. *)
Definition part_item (pv : part * string) : Item :=
  {| value := Str (render_spec pv.1 pv.2); type := part_type pv.1 |}.

(** The types of a sequence never decrease from left to right. *)
Definition in_order (l : list Item) : Prop :=
  StronglySorted (λ a b, type a ≤ type b) l.

(** A sequence in the order of the grammar, with each singleton kind at
    most once: [element#id.class[attr]:pseudoClass::pseudoElement]. *)
Definition grammatical (l : list Item) : Prop :=
  in_order l
  ∧ ∀ p, singleton p = true → (count_type (part_type p) l ≤ 1)%nat.

(** The stores reachable from the empty one through the six appending
    methods alone, without [combine]. *)
Inductive built_by_appends : heap → Prop :=
  | appends_empty : built_by_appends []
  | appends_call h p this v :
      built_by_appends h → in_store h (call_append p this v) →
      built_by_appends (snd (append p this v h)).

(** The example of the source's own comment: three nested [combine]s. *)
Definition source_comment_example : M heap string :=
  let! a := cssSelectorBuilder.element Facade "div" in
  let! a := cssSelectorBuilder.id (Inst a) "main" in
  let! a := cssSelectorBuilder.class (Inst a) "container" in
  let! a := cssSelectorBuilder.class (Inst a) "draggable" in
  let! b := cssSelectorBuilder.element Facade "table" in
  let! b := cssSelectorBuilder.id (Inst b) "data" in
  let! c := cssSelectorBuilder.element Facade "tr" in
  let! c := cssSelectorBuilder.pseudoClass (Inst c) "nth-of-type(even)" in
  let! d := cssSelectorBuilder.element Facade "td" in
  let! d := cssSelectorBuilder.pseudoClass (Inst d) "nth-of-type(even)" in
  let! cd := cssSelectorBuilder.combine c " " d in
  let! bcd := cssSelectorBuilder.combine b "~" cd in
  let! r := cssSelectorBuilder.combine a "+" bcd in
  MyCssSelector.stringify r.

(** A partial description of the engine that knows one malformed text:
    [{] alone. *)
Definition malformed_host : Host :=
  {| Number_toString := integral_text;
     JSON_parse := λ json,
       if bool_decide (json = "{")
       then Throw (SyntaxError "Unexpected end of JSON input")
       else Beyond |}.

(** ** Vocabulary for the round trip through JSON text *)

(** *** The grammar of [JSON.parse] (ECMA-262 25.5.1, ECMA-404)

    The text is read by recursive descent.  Only the reading of a number
    token is left to its parameter [read], the engine's conversion of a
    decimal text to a double: where [read] is silent the run is [Beyond],
    and so is an escape [\u] of a code unit above 255. *)

Definition then_ {A B} (r : outcome A) (k : A → outcome B) : outcome B :=
  match r with
  | Return a => k a
  | Throw e => Throw e
  | Beyond => Beyond
  end.

Definition json_syntax_error : exn := SyntaxError "Unexpected token in JSON".

Definition is_ws (c : ascii) : bool :=
  let n := N_of_ascii c in
  ((n =? 32) || (n =? 9) || (n =? 10) || (n =? 13))%N.

Fixpoint skip_ws (s : string) : string :=
  match s with
  | EmptyString => EmptyString
  | String c s' => if is_ws c then skip_ws s' else s
  end.

Definition is_digit (c : ascii) : bool :=
  let n := N_of_ascii c in ((48 <=? n) && (n <=? 57))%N.

(** The characters a number token is made of. *)
Definition number_char (c : ascii) : bool :=
  is_digit c || Ascii.eqb c "-" || Ascii.eqb c "+" || Ascii.eqb c "."
  || Ascii.eqb c "e" || Ascii.eqb c "E".

(** The longest prefix of characters that satisfy [p], and the rest. *)
Fixpoint span (p : ascii → bool) (s : string) : string * string :=
  match s with
  | EmptyString => (EmptyString, EmptyString)
  | String c s' =>
      if p c then let '(a, b) := span p s' in (String c a, b)
      else (EmptyString, s)
  end.

Definition is_empty (s : string) : bool :=
  match s with
  | EmptyString => true
  | String _ _ => false
  end.

(** One or more digits, then [k] of what follows. *)
Definition digits_then (k : string → bool) (s : string) : bool :=
  let '(d, r) := span is_digit s in negb (is_empty d) && k r.

Definition exponent_part (s : string) : bool :=
  match s with
  | EmptyString => true
  | String c s' =>
      (Ascii.eqb c "e" || Ascii.eqb c "E")
      && digits_then is_empty
           match s' with
           | String c' s'' =>
               if Ascii.eqb c' "+" || Ascii.eqb c' "-" then s'' else s'
           | EmptyString => s'
           end
  end.

Definition fraction_part (s : string) : bool :=
  match s with
  | EmptyString => true
  | String c s' =>
      if Ascii.eqb c "." then digits_then exponent_part s' else exponent_part s
  end.

(** The number grammar: an optional minus, [0] or a digit other than [0]
    followed by digits, an optional fraction, an optional exponent. *)
Definition json_number (s : string) : bool :=
  let s :=
    match s with
    | String c s' => if Ascii.eqb c "-" then s' else s
    | EmptyString => s
    end in
  match s with
  | EmptyString => false
  | String c s' =>
      if Ascii.eqb c "0" then fraction_part s'
      else is_digit c && (let '(_, r) := span is_digit s' in fraction_part r)
  end.

Definition hex_value (c : ascii) : option N :=
  let n := N_of_ascii c in
  if ((48 <=? n) && (n <=? 57))%N then Some (n - 48)%N
  else if ((97 <=? n) && (n <=? 102))%N then Some (n - 87)%N
  else if ((65 <=? n) && (n <=? 70))%N then Some (n - 55)%N
  else None.

(** The character an escape of one letter stands for. *)
Definition unescape (c : ascii) : option ascii :=
  if Ascii.eqb c "034" then Some "034"%char
  else if Ascii.eqb c "\" then Some "\"%char
  else if Ascii.eqb c "/" then Some "/"%char
  else if Ascii.eqb c "b" then Some "008"%char
  else if Ascii.eqb c "f" then Some "012"%char
  else if Ascii.eqb c "n" then Some "010"%char
  else if Ascii.eqb c "r" then Some "013"%char
  else if Ascii.eqb c "t" then Some "009"%char
  else None.

Definition prepend (c : ascii) (r : outcome (string * string))
    : outcome (string * string) :=
  then_ r (λ '(s, rest), Return (String c s, rest)).

(** The characters of a string up to its closing quote, and what follows
    the quote. *)
Fixpoint parse_string (s : string) : outcome (string * string) :=
  match s with
  | EmptyString => Throw json_syntax_error
  | String c s' =>
      if Ascii.eqb c "034" then Return (EmptyString, s')
      else if Ascii.eqb c "\" then
        match s' with
        | EmptyString => Throw json_syntax_error
        | String e s'' =>
            if Ascii.eqb e "u" then
              match s'' with
              | String h1 (String h2 (String h3 (String h4 s3))) =>
                  match hex_value h1, hex_value h2, hex_value h3, hex_value h4 with
                  | Some n1, Some n2, Some n3, Some n4 =>
                      let n := (((n1 * 16 + n2) * 16 + n3) * 16 + n4)%N in
                      if (n <? 256)%N then prepend (ascii_of_N n) (parse_string s3)
                      else Beyond
                  | _, _, _, _ => Throw json_syntax_error
                  end
              | _ => Throw json_syntax_error
              end
            else
              match unescape e with
              | Some c' => prepend c' (parse_string s'')
              | None => Throw json_syntax_error
              end
        end
      else if (N_of_ascii c <? 32)%N then Throw json_syntax_error
      else prepend c (parse_string s')
  end.

(** What follows the character [c] at the head of [s], if [c] is there. *)
Definition starts_with (c : ascii) (s : string) : option string :=
  match s with
  | EmptyString => None
  | String c' s' => if Ascii.eqb c c' then Some s' else None
  end.

Fixpoint strip_prefix (p s : string) : option string :=
  match p with
  | EmptyString => Some s
  | String c p' =>
      match s with
      | EmptyString => None
      | String c' s' => if Ascii.eqb c c' then strip_prefix p' s' else None
      end
  end.

(** A value, the elements of an array after its bracket, and the members
    of an object after its brace.  Every call reads at least one character
    before it calls again, or is followed by one that does: [fuel] counts
    the calls down. *)
Fixpoint parse_value (read : string → option float) (fuel : nat) (s : string)
    {struct fuel} : outcome (tree * string) :=
  match fuel with
  | O => Beyond
  | S f =>
      match skip_ws s with
      | EmptyString => Throw json_syntax_error
      | String c s' =>
          if number_char c then
            let '(token, rest) := span number_char (String c s') in
            if json_number token then
              match read token with
              | Some x => Return (TNumber x, rest)
              | None => Beyond
              end
            else Throw json_syntax_error
          else if Ascii.eqb c "034" then
            then_ (parse_string s') (λ '(str, rest), Return (TString str, rest))
          else if Ascii.eqb c "[" then
            match starts_with "]" (skip_ws s') with
            | Some rest => Return (TArray [], rest)
            | None =>
                then_ (parse_elements read f s')
                  (λ '(ts, rest), Return (TArray ts, rest))
            end
          else if Ascii.eqb c "{" then
            match starts_with "}" (skip_ws s') with
            | Some rest => Return (TObject [], rest)
            | None =>
                then_ (parse_members read f s')
                  (λ '(ms, rest), Return (TObject ms, rest))
            end
          else
            match strip_prefix "true" (String c s'),
                  strip_prefix "false" (String c s'),
                  strip_prefix "null" (String c s') with
            | Some rest, _, _ => Return (TBoolean true, rest)
            | _, Some rest, _ => Return (TBoolean false, rest)
            | _, _, Some rest => Return (TNull, rest)
            | None, None, None => Throw json_syntax_error
            end
      end
  end
with parse_elements (read : string → option float) (fuel : nat) (s : string)
    {struct fuel} : outcome (list tree * string) :=
  match fuel with
  | O => Beyond
  | S f =>
      then_ (parse_value read f s) (λ '(t, rest),
        match starts_with "," (skip_ws rest) with
        | Some rest' =>
            then_ (parse_elements read f rest')
              (λ '(ts, rest''), Return (t :: ts, rest''))
        | None =>
            match starts_with "]" (skip_ws rest) with
            | Some rest' => Return ([t], rest')
            | None => Throw json_syntax_error
            end
        end)
  end
with parse_members (read : string → option float) (fuel : nat) (s : string)
    {struct fuel} : outcome (list (string * tree) * string) :=
  match fuel with
  | O => Beyond
  | S f =>
      match starts_with "034" (skip_ws s) with
      | None => Throw json_syntax_error
      | Some s1 =>
          then_ (parse_string s1) (λ '(k, rest1),
            match starts_with ":" (skip_ws rest1) with
            | None => Throw json_syntax_error
            | Some rest2 =>
                then_ (parse_value read f rest2) (λ '(t, rest),
                  match starts_with "," (skip_ws rest) with
                  | Some rest' =>
                      then_ (parse_members read f rest')
                        (λ '(ms, rest''), Return ((k, t) :: ms, rest''))
                  | None =>
                      match starts_with "}" (skip_ws rest) with
                      | Some rest' => Return ([(k, t)], rest')
                      | None => Throw json_syntax_error
                      end
                  end)
            end)
      end
  end.

(** The grammar of [JSON.parse] on a whole text: one value, with nothing
    but white space around it. *)
Definition JSON_parse_text (read : string → option float) (json : string)
    : outcome tree :=
  then_ (parse_value read (2 * String.length json + 2) json) (λ '(t, rest),
    if is_empty (skip_ws rest) then Return t else Throw json_syntax_error).

(** *** Values as data *)

Definition all2 {A B} (R : A → B → Prop) : list A → list B → Prop :=
  fix go l k :=
    match l, k with
    | [], [] => True
    | a :: l', b :: k' => R a b ∧ go l' k'
    | _, _ => False
    end.

Definition all2_members {A B} (R : A → B → Prop)
    : list (string * A) → list (string * B) → Prop :=
  fix go l k :=
    match l, k with
    | [], [] => True
    | (ka, a) :: l', (kb, b) :: k' => ka = kb ∧ R a b ∧ go l' k'
    | _, _ => False
    end.

(** The value [v] of the store [h] is the data [t]: a number, a string, a
    boolean, [null], an array of data, or a plain object whose properties,
    in their order, are data.  Such a value has no cycle, and no function
    and no [undefined] in it. *)
Fixpoint denotes (h : store) (t : tree) (v : jsval) : Prop :=
  match t with
  | TNull => v = JNull
  | TBoolean b => v = JBoolean b
  | TNumber x => v = JNumber x
  | TString s => v = JString s
  | TArray elems =>
      ∃ l vs, v = JObject l ∧ h !! l = Some (Array vs)
              ∧ all2 (denotes h) elems vs
  | TObject members =>
      ∃ l props, v = JObject l ∧ h !! l = Some (Plain "Object" props)
                 ∧ all2_members (denotes h) members props
  end.

(** The keys are in the order in which the engine enumerates them: the
    order that writing them one by one into an empty object gives. *)
Definition enumerated (ks : list string) : Prop :=
  (set_props ((λ k, (k, JNull)) <$> ks) []).*1 = ks.

(** A number that the text carries: it is finite, the engine prints it as
    a number token of the grammar, and the engine reads that token back as
    the same number. *)
Definition reads_back (host : Host) (read : string → option float)
    (x : float) : Prop :=
  is_finite x = true
  ∧ ∃ s, Number_toString host x = Some s
         ∧ forallb number_char (list_ascii_of_string s) = true
         ∧ json_number s = true
         ∧ read s = Some x.

Definition all1 {A} (P : A → Prop) : list A → Prop :=
  fix go l :=
    match l with
    | [] => True
    | a :: l' => P a ∧ go l'
    end.

Definition all1_members {A} (P : A → Prop) : list (string * A) → Prop :=
  fix go l :=
    match l with
    | [] => True
    | (_, a) :: l' => P a ∧ go l'
    end.

(** Data that the text carries: every number in it reads back, and the
    keys of every object are in enumeration order. *)
Fixpoint carried (host : Host) (read : string → option float) (t : tree) : Prop :=
  match t with
  | TNumber x => reads_back host read x
  | TArray elems => all1 (carried host read) elems
  | TObject members =>
      enumerated members.*1 ∧ all1_members (carried host read) members
  | _ => True
  end.

(** The text of data, as [JSON.stringify] writes it. *)
Fixpoint tree_text (host : Host) (t : tree) : string :=
  match t with
  | TNull => "null"
  | TBoolean true => "true"
  | TBoolean false => "false"
  | TNumber x => default EmptyString (Number_toString host x)
  | TString s => QuoteJSONString s
  | TArray elems =>
      "[" +:+ String.concat "," (map (tree_text host) elems) +:+ "]"
  | TObject members =>
      "{" +:+ String.concat ","
                (map (λ kt, QuoteJSONString kt.1 +:+ ":" +:+ tree_text host kt.2)
                     members)
          +:+ "}"
  end.

(** The number of nodes of data, list cells counted. *)
Fixpoint tree_size (t : tree) : nat :=
  match t with
  | TArray elems => S (list_sum (map (λ e, S (tree_size e)) elems))
  | TObject members => S (list_sum (map (λ kt, S (tree_size kt.2)) members))
  | _ => 1
  end.

(** What may follow a number token in a text: not a character of number
    tokens. *)
Definition delimited (rest : string) : Prop :=
  match rest with
  | EmptyString => True
  | String c _ => number_char c = false
  end.

(** The decimal text of an integer below [2^53] in absolute value, read as
    a double; silent on every other token. *)
Definition integral_read (s : string) : option float :=
  let '(negative, digits) :=
    match s with
    | String c s' => if Ascii.eqb c "-" then (true, s') else (false, s)
    | EmptyString => (false, s)
    end in
  match digits_to_N 0 digits with
  | Some n =>
      if bool_decide (pretty n = digits) && (n <? 2 ^ 53)%N
         && negb (negative && (n =? 0)%N)
      then
        let x := PrimFloat.of_uint63 (Uint63.of_Z (Z.of_N n)) in
        Some (if negative then PrimFloat.opp x else x)
      else None
  | None => None
  end.

(** An engine whose [JSON.parse] follows the grammar, described by how it
    prints a finite number and how it reads a number token. *)
Definition grammar_engine (print : float → option string)
    (read : string → option float) : Host :=
  {| Number_toString := print; JSON_parse := JSON_parse_text read |}.

(** The description that prints and reads integers. *)
Definition grammar_host : Host := grammar_engine integral_text integral_read.

(** [{ width: 10, tags: ['a', null, true], inner: {} }] at location 0, its
    array at location 1 and its inner object at location 2. *)
Definition store_data : store :=
  [ Plain "Object" [("width", JNumber 10%float); ("tags", JObject 1%nat);
                    ("inner", JObject 2%nat)];
    Array [JString "a"; JNull; JBoolean true];
    Plain "Object" [] ].

Definition tree_data : tree :=
  TObject [("width", TNumber 10%float);
           ("tags", TArray [TString "a"; TNull; TBoolean true]);
           ("inner", TObject [])].

(** * Properties of the selector builder *)

Section validate_facts.
Import ITEM_TYPES MyCssSelector.

Lemma append_this_add p this v :
  append p this v = cssSelectorBuilder.this_add this (Str v) (part_type p).
Proof. by destruct p. Qed.

Lemma part_type_range p : 0 ≤ part_type p ≤ 5.
Proof. by destruct p. Qed.

Lemma singleton_disposable p :
  bool_decide (part_type p ∈ [0; 1; 5]) = singleton p.
Proof. by destruct p; vm_compute. Qed.

Lemma newValue_part p v : newValue (Str v) (part_type p) = Str (render_spec p v).
Proof. by destruct p. Qed.

Lemma counter_step (acc : gmap Z nat) t n :
  <[t := n]> (if falsy (acc !! t) then <[t := 0%nat]> acc else acc) = <[t := n]> acc.
Proof. destruct (falsy _); [apply insert_insert_eq | done]. Qed.

(** The counter of [validate] holds, for each of the three disposable
    types, the number of items of that type. *)
Lemma typesCounter_lookup o t :
  disposableTypes o = [0; 1; 5] →
  typesCounter o !! t =
    if bool_decide (t ∈ [0; 1; 5]) then Some (count_type t (items o)) else None.
Proof.
  intros Hd. unfold typesCounter. rewrite Hd. cbn [foldl].
  rewrite !counter_step. unfold count_type.
  destruct (decide (t = 5)) as [->|H5]; [by rewrite lookup_insert_eq|].
  rewrite lookup_insert_ne by done.
  destruct (decide (t = 1)) as [->|H1]; [by rewrite lookup_insert_eq|].
  rewrite lookup_insert_ne by done.
  destruct (decide (t = 0)) as [->|H0]; [by rewrite lookup_insert_eq|].
  rewrite lookup_insert_ne, lookup_empty by done.
  rewrite bool_decide_eq_false_2; [done|].
  rewrite !elem_of_cons, elem_of_nil. tauto.
Qed.

(** [validate] as the two checks it performs, in their order. *)
Lemma validate_unfold o t :
  disposableTypes o = [0; 1; 5] →
  validate o t =
    if bool_decide (t ∈ [0; 1; 5]) && bool_decide (count_type t (items o) = 1%nat)
    then Throw DuplicateSelectorPartError
    else match last (items o) with
         | Some lastItem =>
             if t <? type lastItem then Throw SelectorOrderError else Return ()
         | None => Return ()
         end.
Proof.
  intros Hd. unfold validate. rewrite typesCounter_lookup, Hd by done.
  destruct (bool_decide (t ∈ [0; 1; 5])) eqn:Hin; [|done]. cbn [andb].
  by rewrite (bool_decide_ext (Some (count_type t (items o)) = Some 1%nat)
                (count_type t (items o) = 1%nat)) by naive_solver.
Qed.

(** The run of [add] for a type other than [SELECTOR] on an instance in
    the store. *)
Lemma add_part_run h this o v t :
  h !! this = Some o → t ≠ SELECTOR →
  add this v t h =
    match validate o t with
    | Throw e => (Throw e, h)
    | Beyond => (Beyond, h)
    | Return _ =>
        (Return this,
         <[this := {| items := items o ++ [ {| value := newValue v t; type := t |} ];
                      disposableTypes := disposableTypes o |}]> h)
    end.
Proof.
  intros Hl Ht. unfold add, bind, read, push, ret.
  apply Z.eqb_neq in Ht. rewrite Ht. cbn [negb]. rewrite Hl.
  destruct (validate o t); [by rewrite Hl|done..].
Qed.

(** The run of [add] for [SELECTOR]: no validation, the items of the
    operand, as they are at that moment, are pushed. *)
Lemma add_selector_run h this o r o' :
  h !! this = Some o → h !! r = Some o' →
  add this (Obj r) SELECTOR h =
    (Return this,
     <[this := {| items := items o ++ items o';
                  disposableTypes := disposableTypes o |}]> h).
Proof.
  intros Hl Hr. unfold add, bind, read, push, ret. cbn. by rewrite Hr, Hl.
Qed.

(** A fresh instance accepts any type. *)
Lemma validate_fresh t :
  validate {| items := []; disposableTypes := [ELEMENT; ID; PSEUDO_ELEMENT] |} t
  = Return ().
Proof.
  rewrite validate_unfold by done. cbn.
  by rewrite andb_false_r.
Qed.

(** A facade call on the facade itself allocates, and cannot throw. *)
Lemma this_add_facade_run h v t :
  t ≠ SELECTOR →
  cssSelectorBuilder.this_add Facade v t h =
    (Return (length h),
     h ++ [ {| items := [ {| value := newValue v t; type := t |} ];
               disposableTypes := [0; 1; 5] |} ]).
Proof.
  intros Ht. unfold cssSelectorBuilder.this_add, cssSelectorBuilder.add, bind, new.
  erewrite add_part_run; [| by apply list_lookup_middle | done].
  rewrite validate_fresh. cbn [items disposableTypes app].
  rewrite (insert_app_r_alt h _ (length h)), Nat.sub_diag by done. done.
Qed.
End validate_facts.

Section builder_invariant.
Import ITEM_TYPES MyCssSelector.

Lemma wf_lookup h r o : wf h → h !! r = Some o → wf_instance o.
Proof. intros Hwf Hl. by eapply Forall_lookup_1. Qed.

(** The combinator passes [validate] on any instance of a reachable store:
    it is no disposable type, and no item has a greater type. *)
Lemma validate_combinator o : wf_instance o → validate o COMBINATOR = Return ().
Proof.
  intros [Hd Hty]. rewrite validate_unfold by done.
  rewrite bool_decide_eq_false_2; [cbn [andb]|].
  - destruct (last (items o)) as [lastItem|] eqn:Hlast; [|done].
    apply last_Some_elem_of in Hlast.
    rewrite Forall_forall in Hty. specialize (Hty _ Hlast).
    destruct (Z.ltb_spec COMBINATOR (type lastItem)); [|done].
    unfold COMBINATOR in *. lia.
  - rewrite !elem_of_cons, elem_of_nil. unfold COMBINATOR.
    intros [?|[?|[?|[]]]]; discriminate.
Qed.

(** The run of [combine]: the left operand receives the combinator and
    then the items the right operand holds at that moment, which, when
    both operands are one object, already include the combinator. *)
Lemma combine_run h L R t oL oR :
  h !! L = Some oL → h !! R = Some oR → wf_instance oL →
  cssSelectorBuilder.combine L t R h =
    (Return L,
     <[L := {| items := (items oL ++ [combinator_item t])
                        ++ (if decide (L = R)
                            then items oL ++ [combinator_item t]
                            else items oR);
               disposableTypes := disposableTypes oL |}]> h).
Proof.
  intros HL HR Hwf. unfold cssSelectorBuilder.combine, bind.
  rewrite (add_part_run h L oL) by done.
  rewrite validate_combinator by done.
  assert (HLlt : (L < length h)%nat) by (by eapply lookup_lt_Some).
  destruct (decide (L = R)) as [<-|Hne].
  - erewrite add_selector_run; [| by apply list_lookup_insert_eq ..].
    cbn [items disposableTypes]. by rewrite list_insert_insert_eq.
  - erewrite add_selector_run;
      [| by apply list_lookup_insert_eq | by rewrite list_lookup_insert_ne].
    cbn [items disposableTypes]. by rewrite list_insert_insert_eq.
Qed.

Lemma wf_instance_snoc o v t :
  wf_instance o → 0 ≤ t ≤ 6 →
  wf_instance {| items := items o ++ [ {| value := v; type := t |} ];
                 disposableTypes := disposableTypes o |}.
Proof.
  intros [Hd Hty] Ht. split; [done|]. cbn.
  apply Forall_app. split; [done|]. by apply Forall_singleton.
Qed.

(** Every call keeps the store well formed, whether it returns or throws. *)
Lemma run_call_wf h c : wf h → in_store h c → wf (snd (run_call c h)).
Proof.
  intros Hwf Hin. destruct c as [p [|r] v | s1 t s2]; cbn [run_call in_store] in *.
  - rewrite append_this_add, this_add_facade_run by by destruct p.
    cbn [snd]. apply Forall_app. split; [done|].
    apply Forall_singleton. split; [done|]. cbn.
    apply Forall_singleton. cbn. pose proof (part_type_range p). lia.
  - apply lookup_lt_is_Some_2 in Hin as [o Ho].
    rewrite append_this_add. cbn [cssSelectorBuilder.this_add].
    rewrite (add_part_run h r o) by by destruct p.
    destruct (validate o (part_type p)); [|done..]. cbn [snd].
    apply Forall_insert; [done|].
    apply wf_instance_snoc; [by eapply wf_lookup|].
    pose proof (part_type_range p). lia.
  - destruct Hin as [H1 H2].
    apply lookup_lt_is_Some_2 in H1 as [o1 Ho1].
    apply lookup_lt_is_Some_2 in H2 as [o2 Ho2].
    pose proof (wf_lookup _ _ _ Hwf Ho1) as Hw1.
    pose proof (wf_lookup _ _ _ Hwf Ho2) as Hw2.
    rewrite (combine_run h s1 s2 t o1 o2) by done. cbn [snd].
    apply Forall_insert; [done|].
    destruct Hw1 as [Hd1 Hty1], Hw2 as [Hd2 Hty2]. split; [done|]. cbn.
    assert (Forall (λ item, 0 ≤ type item ≤ 6) (items o1 ++ [combinator_item t])).
    { apply Forall_app. split; [done|]. by apply Forall_singleton. }
    apply Forall_app. split; [done|]. by destruct (decide (s1 = s2)).
Qed.

Lemma built_store_div_table : built store_div_table.
Proof.
  apply (built_call store_div (call_append element_part Facade "table")); [|exact I].
  apply (built_call [] (call_append element_part Facade "div")); [|exact I].
  apply built_empty.
Qed.

(** The invariant of the reachable stores. *)
Lemma built_wf h : built h → wf h.
Proof.
  induction 1 as [|h c Hb IH Hin]; [by apply Forall_nil|].
  by apply run_call_wf.
Qed.
End builder_invariant.

Section stringify_facts.
Import ITEM_TYPES MyCssSelector.

Lemma append_empty_r s : s +:+ "" = s.
Proof. induction s as [|a s IH]; [done|]. cbv [String.append]. fold String.append. by rewrite IH. Qed.

Lemma append_assoc s1 s2 s3 : (s1 +:+ s2) +:+ s3 = s1 +:+ (s2 +:+ s3).
Proof.
  induction s1 as [|a s1 IH]; [done|].
  change (String a ((s1 +:+ s2) +:+ s3) = String a (s1 +:+ (s2 +:+ s3))).
  by rewrite IH.
Qed.

(** [join] with the empty separator is plain concatenation. *)
Lemma join_empty_sep l : join "" l = foldr (λ v s, ToString v +:+ s) "" l.
Proof.
  induction l as [|x [|y l] IH]; [done| |].
  - cbn. by rewrite append_empty_r.
  - change (join "" (x :: y :: l)) with (ToString x +:+ "" +:+ join "" (y :: l)).
    by rewrite IH.
Qed.

Lemma join_app l1 l2 : join "" (l1 ++ l2) = join "" l1 +:+ join "" l2.
Proof.
  rewrite !join_empty_sep. induction l1 as [|x l1 IH]; [done|].
  cbn [app foldr]. by rewrite IH, append_assoc.
Qed.

Lemma stringify_run h this o :
  h !! this = Some o → stringify this h = (Return (join "" (map value (items o))), h).
Proof. intros Hl. unfold stringify, bind, read, ret. by rewrite Hl. Qed.

(** A successful append on an instance returns that instance and extends
    its rendering by the rendered text of the part. *)
Lemma append_stringify p r v h r' h' s :
  append p (Inst r) v h = (Return r', h') →
  stringify r h = (Return s, h) →
  r' = r ∧ stringify r h' = (Return (s +:+ render_spec p v), h').
Proof.
  intros Happ Hs. rewrite append_this_add in Happ. cbn [cssSelectorBuilder.this_add] in Happ.
  destruct (h !! r) as [o|] eqn:Hl.
  - rewrite (stringify_run h r o) in Hs by done.
    rewrite (add_part_run h r o) in Happ by by destruct p.
    destruct (validate o (part_type p)); [|done..].
    injection Happ as <- <-. injection Hs as <-. split; [done|].
    erewrite stringify_run;
      [| apply list_lookup_insert_eq; by eapply lookup_lt_Some].
    cbn [items]. by rewrite map_app, join_app, newValue_part.
  - unfold stringify, bind, read in Hs. by rewrite Hl in Hs.
Qed.

Lemma chain_stringify l r h this' h' s :
  chain (Inst r) l h = (Return this', h') →
  stringify r h = (Return s, h) →
  this' = Inst r ∧ stringify r h' = (Return (s +:+ rendered l), h').
Proof.
  revert h s. induction l as [|[p v] l IH]; intros h s Hc Hs.
  - injection Hc as <- <-. by rewrite append_empty_r.
  - cbn [chain] in Hc. unfold bind in Hc.
    destruct (append p (Inst r) v h) as [[r1|e|] h1] eqn:Happ; [|done..].
    destruct (append_stringify _ _ _ _ _ _ _ Happ Hs) as [-> Hs1].
    destruct (IH _ _ Hc Hs1) as [-> Hs2]. split; [done|].
    by rewrite Hs2, append_assoc.
Qed.
End stringify_facts.

(** * The claims about the selector builder *)

Section builder_claims.
Import ITEM_TYPES MyCssSelector.

(** C1: a singleton kind that is already present in the sequence should be
    rejected wherever the earlier fragment came from.  On the code the check
    is [typesCounter[type] === 1]: after [combine(id('a'), ' ', id('b'))] the
    left builder holds two ids, and [id('c')] on it, and then [id('d')],
    both return normally. *)
Theorem duplicate_check_misses_combined_parts :
  ∃ o,
    snd (examples.two_ids_combined []) !! 0%nat = Some o
    ∧ count_type ID (items o) = 2%nat
    ∧ fst (cssSelectorBuilder.id (Inst 0%nat) "c" (snd (examples.two_ids_combined [])))
      = Return 0%nat
    ∧ fst (chain (Inst 0%nat) [(id_part, "c"); (id_part, "d")]
             (snd (examples.two_ids_combined [])))
      = Return (Inst 0%nat).
Proof. eexists. repeat split; reflexivity. Qed.

(** C2, as stated, fails: [element('a').id('b').element('c')] appends a kind
    strictly earlier than that of the last fragment, and the error raised is
    the duplicate error of the first check, not the order error. *)
Lemma earlier_kind_raises_duplicate_error :
  ∃ o lastItem,
    snd (examples.element_then_id []) !! 0%nat = Some o
    ∧ last (items o) = Some lastItem
    ∧ part_type element_part < type lastItem
    ∧ append element_part (Inst 0%nat) "c" (snd (examples.element_then_id []))
      = (Throw DuplicateSelectorPartError, snd (examples.element_then_id []))
    ∧ DuplicateSelectorPartError ≠ SelectorOrderError.
Proof.
  do 2 eexists. repeat split; try reflexivity.
  intros H. vm_compute in H. discriminate H.
Qed.

(** C2, amended: on a builder of a reachable store whose sequence is not
    empty, appending a kind strictly earlier than the kind of the last
    fragment fails and leaves the store as it was; the error is
    SelectorOrderError when the kind is no singleton kind or no fragment of
    it is present, and DuplicateSelectorPartError when it is a singleton
    kind present exactly once.  Appending a kind equal to or later than the
    last one never raises SelectorOrderError; class after id returns, id
    after class raises SelectorOrderError. *)
Theorem append_order_check p r v h o lastItem :
  built h → h !! r = Some o → last (items o) = Some lastItem →
  (part_type p < type lastItem →
     (∃ e, append p (Inst r) v h = (Throw e, h))
     ∧ (singleton p = false ∨ count_type (part_type p) (items o) = 0%nat →
        append p (Inst r) v h = (Throw SelectorOrderError, h))
     ∧ (singleton p = true → count_type (part_type p) (items o) = 1%nat →
        append p (Inst r) v h = (Throw DuplicateSelectorPartError, h)))
  ∧ (type lastItem ≤ part_type p →
     fst (append p (Inst r) v h) ≠ Throw SelectorOrderError)
  ∧ fst (cssSelectorBuilder.class (Inst 0%nat) "a" (snd (examples.only_id [])))
    = Return 0%nat
  ∧ fst (cssSelectorBuilder.id (Inst 0%nat) "x" (snd (examples.only_class [])))
    = Throw SelectorOrderError.
Proof.
  intros Hb Hl Hlast.
  destruct (wf_lookup _ _ _ (built_wf _ Hb) Hl) as [Hd _].
  rewrite append_this_add. cbn [cssSelectorBuilder.this_add].
  rewrite (add_part_run h r o) by by destruct p.
  rewrite validate_unfold, Hlast, singleton_disposable by done.
  split; [|split; [|done]].
  - intros Hlt. apply Z.ltb_lt in Hlt. rewrite Hlt.
    split; [|split].
    + destruct (_ && _); eauto.
    + intros [Hs|Hc].
      * by rewrite Hs.
      * rewrite Hc. by rewrite andb_false_r.
    + intros Hs Hc. by rewrite Hs, Hc.
  - intros Hle. apply Z.ltb_ge in Hle. rewrite Hle.
    by destruct (_ && _).
Qed.

(** An instance: on [element('a').id('b')], whose last fragment is an id,
    [element('c')] is a singleton kind present exactly once. *)
Lemma append_order_check_witness :
  append element_part (Inst 0%nat) "c" (snd (examples.element_then_id []))
  = (Throw DuplicateSelectorPartError, snd (examples.element_then_id [])).
Proof.
  destruct (append_order_check element_part 0%nat "c"
              (snd (examples.element_then_id []))
              {| items := [ {| value := Str "a"; type := ELEMENT |};
                            {| value := Str "#b"; type := ID |} ];
                 disposableTypes := [0; 1; 5] |}
              {| value := Str "#b"; type := ID |}) as [Hearlier _].
  - apply (built_call _ (call_append id_part (Inst 0%nat) "b")).
    + apply (built_call [] (call_append element_part Facade "a")).
      * apply built_empty.
      * exact I.
    + cbn. lia.
  - reflexivity.
  - reflexivity.
  - destruct Hearlier as (_ & _ & Hdup); [reflexivity|].
    apply Hdup; reflexivity.
Defined.

(** C3, as stated, fails when both operands are one builder:
    [combine(s, '+', s)] on [s = element('a')] leaves [a], [ + ], [a], [ + ]
    in the sequence, which is not [s]'s fragments, the combinator, and
    [s]'s fragments again. *)
Lemma combine_with_itself_repeats_combinator :
  ∃ o o',
    snd (cssSelectorBuilder.element Facade "a" []) = [o]
    ∧ cssSelectorBuilder.combine 0%nat "+" 0%nat [o] = (Return 0%nat, [o'])
    ∧ items o' = items o ++ [combinator_item "+"] ++ items o ++ [combinator_item "+"]
    ∧ items o' ≠ items o ++ [combinator_item "+"] ++ items o.
Proof. do 2 eexists. repeat split; try reflexivity. discriminate. Qed.

(** C3, amended: for two distinct builders [L] and [R] of a reachable store
    and every token [t], [combine(L, t, R)] raises no error, returns [L], and
    leaves in [L] its former fragments, then one combinator fragment whose
    text is a space, [t] and a space, then the fragments of [R]; and
    [combine(element('div').id('main'), '+', element('table').id('data'))
    .stringify()] is [div#main + table#data]. *)
Theorem combine_distinct_builders h L R t oL oR :
  built h → h !! L = Some oL → h !! R = Some oR → L ≠ R →
  cssSelectorBuilder.combine L t R h =
    (Return L,
     <[L := {| items := items oL ++ [combinator_item t] ++ items oR;
               disposableTypes := disposableTypes oL |}]> h)
  ∧ ToString (value (combinator_item t)) = " " +:+ t +:+ " "
  ∧ fst (examples.div_plus_table []) = Return "div#main + table#data".
Proof.
  intros Hb HL HR Hne. split; [|done].
  rewrite (combine_run h L R t oL oR);
    [| done | done | by eapply wf_lookup; [apply built_wf|] ].
  rewrite decide_False by done. by rewrite <- app_assoc.
Qed.

(** An instance: [element('div')] and [element('table')] combined. *)
Lemma combine_distinct_builders_witness :
  cssSelectorBuilder.combine 0%nat "+" 1%nat store_div_table =
    (Return 0%nat,
     [ {| items := [ {| value := Str "div"; type := ELEMENT |};
                     {| value := Str " + "; type := COMBINATOR |};
                     {| value := Str "table"; type := ELEMENT |} ];
          disposableTypes := [0; 1; 5] |};
       {| items := [ {| value := Str "table"; type := ELEMENT |} ];
          disposableTypes := [0; 1; 5] |} ])
  ∧ ToString (value (combinator_item "+")) = " + "
  ∧ fst (examples.div_plus_table []) = Return "div#main + table#data".
Proof.
  apply (combine_distinct_builders store_div_table 0%nat 1%nat "+"
           {| items := [ {| value := Str "div"; type := ELEMENT |} ];
              disposableTypes := [0; 1; 5] |}
           {| items := [ {| value := Str "table"; type := ELEMENT |} ];
              disposableTypes := [0; 1; 5] |}).
  - apply built_store_div_table.
  - reflexivity.
  - reflexivity.
  - lia.
Defined.

(** C4: [stringify()] is the concatenation, in insertion order and with
    nothing in between, of the rendered texts of the fragments: after any
    chain of appends that starts at the facade and returns, the builder
    renders as the rendered texts of the chain's parts, where id is [#name],
    class [.name], attribute [[expr]], pseudoClass [:name], pseudoElement
    [::name] and element the bare name; on any builder, [stringify()] is
    the texts of its items one after the other; the two examples of the
    spec evaluate as given. *)
Theorem stringify_concatenates_rendered_parts l h this' h' :
  chain Facade l h = (Return this', h') → l ≠ [] →
  (∃ r, this' = Inst r ∧ stringify r h' = (Return (rendered l), h'))
  ∧ (∀ h0 r o, h0 !! r = Some o →
       stringify r h0
       = (Return (foldr (λ item s, ToString (value item) +:+ s) "" (items o)), h0))
  ∧ fst (examples.main_container_editable []) = Return "#main.container.editable"
  ∧ fst (examples.a_href_focus [])
    = Return ("a[" +:+ examples.href_png +:+ "]:focus").
Proof.
  intros Hc Hne. split; [|split; [|done]]; cycle 1.
  { intros h0 r o Hl. rewrite (stringify_run h0 r o Hl), join_empty_sep.
    do 2 f_equal. induction (items o) as [|item its IH]; [done|].
    cbn. by rewrite IH. }
  destruct l as [|[p v] l]; [done|]. cbn [chain] in Hc. unfold bind in Hc.
  rewrite append_this_add, this_add_facade_run in Hc by by destruct p.
  set (o := {| items := [ {| value := newValue (Str v) (part_type p);
                              type := part_type p |} ];
               disposableTypes := [0; 1; 5] |}) in Hc.
  assert (Hs : stringify (length h) (h ++ [o])
               = (Return (render_spec p v), h ++ [o])).
  { erewrite stringify_run; [| by apply list_lookup_middle ].
    cbn. by rewrite newValue_part. }
  destruct (chain_stringify _ _ _ _ _ _ Hc Hs) as [-> Hs'].
  exists (length h). split; [done|]. by rewrite Hs'.
Qed.

(** An instance: [id('main').class('container')]. *)
Lemma stringify_concatenates_rendered_parts_witness :
  (∃ r, Inst 0%nat = Inst r
        ∧ stringify r (snd (chain Facade [(id_part, "main"); (class_part, "container")] []))
          = (Return "#main.container",
             snd (chain Facade [(id_part, "main"); (class_part, "container")] [])))
  ∧ (∀ h0 r o, h0 !! r = Some o →
       stringify r h0
       = (Return (foldr (λ item s, ToString (value item) +:+ s) "" (items o)), h0))
  ∧ fst (examples.main_container_editable []) = Return "#main.container.editable"
  ∧ fst (examples.a_href_focus [])
    = Return ("a[" +:+ examples.href_png +:+ "]:focus").
Proof.
  apply (stringify_concatenates_rendered_parts
           [(id_part, "main"); (class_part, "container")] []
           (Inst 0%nat)
           (snd (chain Facade [(id_part, "main"); (class_part, "container")] []))).
  - reflexivity.
  - discriminate.
Defined.

(** C5: an append that throws, whatever the error, leaves the store, and
    with it the fragment sequence of every builder, exactly as it was
    before the call. *)
Theorem rejected_append_leaves_store p this v h e h' :
  append p this v h = (Throw e, h') → h' = h.
Proof.
  rewrite append_this_add. destruct this as [|r].
  - by rewrite this_add_facade_run by by destruct p.
  - cbn [cssSelectorBuilder.this_add].
    destruct (h !! r) as [o|] eqn:Hl.
    + rewrite (add_part_run h r o) by by destruct p.
      destruct (validate o (part_type p)); [done| |done]. by intros [= _ <-].
    + unfold add, bind, read.
      replace (negb (part_type p =? SELECTOR)) with true by by destruct p.
      by rewrite Hl.
Qed.

(** An instance: [id('x')] on [class('a')] is rejected. *)
Lemma rejected_append_leaves_store_witness :
  fst (append id_part (Inst 0%nat) "x" (snd (examples.only_class [])))
  = Throw SelectorOrderError
  ∧ snd (append id_part (Inst 0%nat) "x" (snd (examples.only_class [])))
    = snd (examples.only_class []).
Proof.
  split; [reflexivity|].
  apply (rejected_append_leaves_store id_part (Inst 0%nat) "x"
           (snd (examples.only_class [])) SelectorOrderError).
  reflexivity.
Defined.

(** C10, as stated, fails when both operands are one builder: after
    [combine(s, '+', s)] on [s = element('a')], [s.stringify()] no longer
    returns what it returned before. *)
Lemma combine_with_itself_changes_right_operand :
  fst (stringify 0%nat (snd (cssSelectorBuilder.element Facade "a" [])))
  = Return "a"
  ∧ fst (stringify 0%nat (snd (examples.self_combined [])))
    = Return "a + a + "
  ∧ fst (examples.self_combined []) = Return 0%nat
  ∧ "a" ≠ "a + a + ".
Proof. repeat split; try reflexivity. discriminate. Qed.

(** C10, amended: for two distinct builders [L] and [R] of a reachable
    store and every token [t], [combine(L, t, R)] returns [L] itself, the
    merged sequence is written into [L] in place, every other builder, [R]
    among them, keeps its fragment sequence, and [R.stringify()] returns
    after the call what it returned before. *)
Theorem combine_frame h L R t :
  built h → (L < length h)%nat → (R < length h)%nat → L ≠ R →
  ∃ h',
    cssSelectorBuilder.combine L t R h = (Return L, h')
    ∧ (∀ r, r ≠ L → h' !! r = h !! r)
    ∧ h' !! R = h !! R
    ∧ fst (stringify R h') = fst (stringify R h)
    ∧ (∃ oL oR oL',
         h !! L = Some oL ∧ h !! R = Some oR ∧ h' !! L = Some oL'
         ∧ items oL' = items oL ++ [combinator_item t] ++ items oR).
Proof.
  intros Hb HL HR Hne.
  apply lookup_lt_is_Some_2 in HL as HL'. destruct HL' as [oL HoL].
  apply lookup_lt_is_Some_2 in HR as HR'. destruct HR' as [oR HoR].
  assert (Hrun : cssSelectorBuilder.combine L t R h =
            (Return L,
             <[L := {| items := items oL ++ [combinator_item t] ++ items oR;
                       disposableTypes := disposableTypes oL |}]> h)).
  { rewrite (combine_run h L R t oL oR);
      [| done | done | by eapply wf_lookup; [apply built_wf|] ].
    rewrite decide_False by done. by rewrite <- app_assoc. }
  eexists. split; [exact Hrun|].
  assert (Hframe : ∀ r, r ≠ L →
            <[L := {| items := items oL ++ [combinator_item t] ++ items oR;
                      disposableTypes := disposableTypes oL |}]> h !! r = h !! r).
  { intros r Hr. by rewrite list_lookup_insert_ne. }
  split; [exact Hframe|]. split; [by apply Hframe|]. split.
  - unfold stringify, bind, read. rewrite Hframe by done. by rewrite HoR.
  - exists oL, oR. eexists. repeat split; [done..| |].
    + by apply list_lookup_insert_eq.
    + done.
Qed.

(** An instance: [element('div')] and [element('table')] combined. *)
Lemma combine_frame_witness :
  ∃ h',
    cssSelectorBuilder.combine 0%nat "+" 1%nat store_div_table = (Return 0%nat, h')
    ∧ (∀ r, r ≠ 0%nat → h' !! r = store_div_table !! r)
    ∧ h' !! 1%nat = store_div_table !! 1%nat
    ∧ fst (stringify 1%nat h') = fst (stringify 1%nat store_div_table)
    ∧ (∃ oL oR oL',
         store_div_table !! 0%nat = Some oL
         ∧ store_div_table !! 1%nat = Some oR
         ∧ h' !! 0%nat = Some oL'
         ∧ items oL' = items oL ++ [combinator_item "+"] ++ items oR).
Proof.
  apply (combine_frame store_div_table 0%nat 1%nat "+").
  - apply built_store_div_table.
  - vm_compute. lia.
  - vm_compute. lia.
  - lia.
Defined.
End builder_claims.

(** * Properties of the JSON helpers *)

Section props_facts.

Lemma lookup_prop_is_Some k props : is_Some (lookup_prop k props) ↔ k ∈ props.*1.
Proof.
  induction props as [|[k' v'] props IH]; cbn.
  - rewrite elem_of_nil. split; [by intros [? ?]|done].
  - rewrite elem_of_cons. case_bool_decide as Hk.
    + split; [by left|by eauto].
    + rewrite IH. split; [by right|]. by intros [?|?]; [congruence|].
Qed.

Lemma lookup_prop_None k props : lookup_prop k props = None ↔ k ∉ props.*1.
Proof. by rewrite <- lookup_prop_is_Some, eq_None_not_Some. Qed.

Lemma update_prop_keys k v props :
  is_Some (lookup_prop k props) → (update_prop k v props).*1 = props.*1.
Proof.
  induction props as [|[k' v'] props IH]; cbn; [done|].
  case_bool_decide as Hk; cbn; [by rewrite Hk|].
  intros H. by rewrite IH.
Qed.

Lemma lookup_update_prop k v props k' :
  is_Some (lookup_prop k props) →
  lookup_prop k' (update_prop k v props) =
    if decide (k' = k) then Some v else lookup_prop k' props.
Proof.
  induction props as [|[k1 v1] props IH]; cbn.
  - by intros [? ?].
  - case_bool_decide as Hk.
    + intros _. subst k1. cbn. by repeat (case_bool_decide || case_decide).
    + intros H. cbn. rewrite IH by done.
      by repeat (case_bool_decide || case_decide); subst.
Qed.

Lemma insert_index_keys n k v props : (insert_index n k v props).*1 ≡ₚ k :: props.*1.
Proof.
  induction props as [|[k' v'] props IH]; cbn; [done|].
  destruct (array_index k'); [|done].
  destruct (_ <? _)%N; [|done]. cbn. rewrite IH. apply Permutation_swap.
Qed.

Lemma lookup_insert_index n k v props k' :
  lookup_prop k props = None →
  lookup_prop k' (insert_index n k v props) =
    if decide (k' = k) then Some v else lookup_prop k' props.
Proof.
  induction props as [|[k1 v1] props IH]; cbn.
  - intros _. by repeat (case_bool_decide || case_decide).
  - case_bool_decide as Hk; [done|]. intros Hnone.
    destruct (array_index k1) as [n1|]; [destruct (n1 <? n)%N|]; cbn;
      rewrite ?IH by done;
      by repeat (case_bool_decide || case_decide); subst.
Qed.

Lemma lookup_prop_snoc k v props k' :
  lookup_prop k props = None →
  lookup_prop k' (props ++ [(k, v)]) =
    if decide (k' = k) then Some v else lookup_prop k' props.
Proof.
  induction props as [|[k1 v1] props IH]; cbn.
  - intros _. by repeat (case_bool_decide || case_decide).
  - case_bool_decide as Hk; [done|]. intros Hnone. rewrite IH by done.
    by repeat (case_bool_decide || case_decide); subst.
Qed.

(** Reading after writing one property. *)
Lemma lookup_set_prop k v props k' :
  lookup_prop k' (set_prop k v props) =
    if decide (k' = k) then Some v else lookup_prop k' props.
Proof.
  unfold set_prop. destruct (lookup_prop k props) as [v0|] eqn:Hl.
  - by apply lookup_update_prop.
  - destruct (array_index k).
    + by apply lookup_insert_index.
    + by apply lookup_prop_snoc.
Qed.

(** Writing the properties of a source whose keys are distinct: the source
    wins, the other properties stay. *)
Lemma lookup_set_props entries props k :
  NoDup entries.*1 →
  lookup_prop k (set_props entries props) =
    match lookup_prop k entries with
    | Some v => Some v
    | None => lookup_prop k props
    end.
Proof.
  unfold set_props. revert props.
  induction entries as [|[k1 v1] entries IH]; intros props Hnd; [done|].
  cbn [fmap list_fmap fst] in Hnd. apply NoDup_cons in Hnd as [Hk1 Hnd].
  cbn [foldl]. rewrite IH by done. cbn [fst snd lookup_prop].
  rewrite lookup_set_prop. case_bool_decide as Hk.
  - subst k1. apply lookup_prop_None in Hk1. rewrite Hk1. by rewrite decide_True.
  - rewrite decide_False by congruence. done.
Qed.

Lemma set_prop_keys k v props : ∀ k', k' ∈ (set_prop k v props).*1 ↔ k' = k ∨ k' ∈ props.*1.
Proof.
  intros k'. rewrite <- !lookup_prop_is_Some, lookup_set_prop.
  case_decide as Hk.
  - split; [by left|by eauto].
  - split; [by right|]. by intros [?|?].
Qed.

Lemma set_props_keys entries props :
  ∀ k, k ∈ (set_props entries props).*1 ↔ k ∈ entries.*1 ∨ k ∈ props.*1.
Proof.
  unfold set_props. revert props.
  induction entries as [|[k1 v1] entries IH]; intros props k; cbn [foldl].
  - cbn. rewrite elem_of_nil. tauto.
  - rewrite IH, set_prop_keys. cbn. rewrite elem_of_cons. tauto.
Qed.

Lemma set_prop_NoDup k v props : NoDup props.*1 → NoDup (set_prop k v props).*1.
Proof.
  intros Hnd. unfold set_prop. destruct (lookup_prop k props) as [v0|] eqn:Hl.
  - by rewrite update_prop_keys by by rewrite Hl.
  - apply lookup_prop_None in Hl. destruct (array_index k).
    + rewrite insert_index_keys. by apply NoDup_cons.
    + rewrite fmap_app. cbn. apply NoDup_app. split; [done|]. split.
      * intros x Hx Hx'. apply list_elem_of_singleton in Hx'. by subst.
      * apply NoDup_singleton.
Qed.

Lemma set_props_NoDup entries props :
  NoDup props.*1 → NoDup (set_props entries props).*1.
Proof.
  unfold set_props. revert props.
  induction entries as [|[k1 v1] entries IH]; intros props Hnd; cbn [foldl]; [done|].
  apply IH. by apply set_prop_NoDup.
Qed.

(** Induction on what a text denotes, through the lists it nests. *)
Lemma tree_nested_ind (P : tree → Prop) :
  P TNull → (∀ b, P (TBoolean b)) → (∀ x, P (TNumber x)) → (∀ s, P (TString s)) →
  (∀ elems, Forall P elems → P (TArray elems)) →
  (∀ members, Forall (λ kt, P kt.2) members → P (TObject members)) →
  ∀ t, P t.
Proof.
  intros Hnull Hbool Hnum Hstr Harr Hobj.
  refine (fix IH (t : tree) : P t :=
            match t with
            | TNull => Hnull
            | TBoolean b => Hbool b
            | TNumber x => Hnum x
            | TString s => Hstr s
            | TArray elems =>
                Harr elems
                  ((fix go (l : list tree) : Forall P l :=
                      match l with
                      | [] => Forall_nil_2 _
                      | t' :: l' => Forall_cons_2 _ _ _ (IH t') (go l')
                      end) elems)
            | TObject members =>
                Hobj members
                  ((fix go (l : list (string * tree)) : Forall (λ kt, P kt.2) l :=
                      match l with
                      | [] => Forall_nil_2 _
                      | kt :: l' => Forall_cons_2 _ _ _ (IH kt.2) (go l')
                      end) members)
            end).
Qed.

(** [materialize] returns, and only adds objects to the store. *)
Lemma materialize_extends t :
  ∀ h, ∃ v hn, materialize t h = (Return v, h ++ hn).
Proof.
  induction t as [|b|x|s|elems IH|members IH] using tree_nested_ind; intros h;
    try (by eexists _, []; rewrite app_nil_r).
  - assert (Hall : ∀ h, ∃ vs hn,
              materialize_elements materialize elems h = (Return vs, h ++ hn)).
    { clear h. induction IH as [|t elems Ht _ IHl]; intros h.
      - by eexists [], []; rewrite app_nil_r.
      - cbn. unfold bind. destruct (Ht h) as (v & hn1 & ->).
        destruct (IHl (h ++ hn1)) as (vs & hn2 & ->).
        eexists _, (hn1 ++ hn2). by rewrite app_assoc. }
    cbn. unfold bind. destruct (Hall h) as (vs & hn & ->).
    eexists _, (hn ++ [_]). unfold alloc. by rewrite app_assoc.
  - assert (Hall : ∀ h, ∃ kvs hn,
              materialize_members materialize members h = (Return kvs, h ++ hn)).
    { clear h. induction IH as [|[k t] members Ht _ IHl]; intros h.
      - by eexists [], []; rewrite app_nil_r.
      - cbn in Ht |- *. unfold bind. destruct (Ht h) as (v & hn1 & ->).
        destruct (IHl (h ++ hn1)) as (kvs & hn2 & ->).
        eexists _, (hn1 ++ hn2). by rewrite app_assoc. }
    cbn. unfold bind. destruct (Hall h) as (kvs & hn & ->).
    eexists _, (hn ++ [_]). unfold alloc. by rewrite app_assoc.
Qed.

Lemma materialize_elements_extends elems :
  ∀ h, ∃ vs hn,
    materialize_elements materialize elems h = (Return vs, h ++ hn)
    ∧ length vs = length elems.
Proof.
  induction elems as [|t elems IH]; intros h.
  - by eexists [], []; rewrite app_nil_r.
  - cbn. unfold bind. destruct (materialize_extends t h) as (v & hn1 & ->).
    destruct (IH (h ++ hn1)) as (vs & hn2 & -> & Hlen).
    eexists _, (hn1 ++ hn2). rewrite app_assoc. split; [done|]. cbn. by rewrite Hlen.
Qed.

Lemma materialize_members_extends members :
  ∀ h, ∃ kvs hn,
    materialize_members materialize members h = (Return kvs, h ++ hn)
    ∧ kvs.*1 = members.*1.
Proof.
  induction members as [|[k t] members IH]; intros h.
  - by eexists [], []; rewrite app_nil_r.
  - cbn. unfold bind. destruct (materialize_extends t h) as (v & hn1 & ->).
    destruct (IH (h ++ hn1)) as (kvs & hn2 & -> & Hkeys).
    eexists _, (hn1 ++ hn2). rewrite app_assoc. split; [done|]. cbn. by rewrite Hkeys.
Qed.

Lemma index_keys {A} (g : A → jsval) (l : list A) :
  (imap (λ i e, (pretty i, g e)) l).*1 = pretty <$> seq 0 (length l).
Proof.
  rewrite fmap_imap, <- imap_seq_0. by apply imap_ext.
Qed.

Lemma index_keys_NoDup (n : nat) : NoDup (pretty <$> seq 0 n : list string).
Proof. apply (NoDup_fmap_2 _), NoDup_seq. Qed.

(** What [materialize] returns: a value whose own enumerable properties, in
    the extended store, have distinct keys, the keys of the text. *)
Lemma materialize_fields t h :
  ∃ v hn entries,
    materialize t h = (Return v, h ++ hn)
    ∧ own_enumerable (h ++ hn) v = Some entries
    ∧ NoDup entries.*1
    ∧ (∀ k, k ∈ entries.*1 ↔ k ∈ tree_keys t)
    ∧ (∀ l, v = JObject l → (length h ≤ l)%nat).
Proof.
  destruct t as [|b|x|s|elems|members].
  - eexists _, [], []. rewrite app_nil_r. repeat split; try done. apply NoDup_nil_2.
  - eexists _, [], []. rewrite app_nil_r. repeat split; try done. apply NoDup_nil_2.
  - eexists _, [], []. rewrite app_nil_r. repeat split; try done. apply NoDup_nil_2.
  - eexists _, [], _. rewrite app_nil_r. split; [done|]. split; [done|].
    rewrite (index_keys JString). split; [apply index_keys_NoDup|].
    split; [|done].
    intros k. cbn [tree_keys]. by rewrite imap_seq_0.
  - destruct (materialize_elements_extends elems h) as (vs & hn & Hrun & Hlen).
    eexists _, (hn ++ [Array vs]), _. cbn [materialize]. unfold bind, alloc. rewrite Hrun.
    rewrite app_assoc. split; [done|]. unfold own_enumerable.
    rewrite list_lookup_middle by done. split; [done|].
    rewrite (index_keys (λ e, e)). split; [apply index_keys_NoDup|].
    split; [|intros l [= <-]; rewrite length_app; lia].
    intros k. cbn [tree_keys]. by rewrite imap_seq_0, Hlen.
  - destruct (materialize_members_extends members h) as (kvs & hn & Hrun & Hkeys).
    eexists _, (hn ++ [_]), _. cbn [materialize]. unfold bind, alloc. rewrite Hrun.
    rewrite app_assoc. split; [done|]. unfold own_enumerable.
    rewrite list_lookup_middle by done. split; [done|].
    split; [apply set_props_NoDup, NoDup_nil_2|].
    split; [|intros l [= <-]; rewrite length_app; lia].
    intros k. rewrite set_props_keys, Hkeys. cbn [tree_keys]. rewrite elem_of_nil. tauto.
Qed.

(** Writing an object leaves the own properties of the values that denote
    other objects, or none. *)
Lemma own_enumerable_insert_ne h l o v :
  (∀ l', v = JObject l' → l' ≠ l) →
  own_enumerable (<[l := o]> h) v = own_enumerable h v.
Proof.
  intros Hne. destruct v; try done. cbn.
  by rewrite list_lookup_insert_ne by (by apply not_eq_sym, Hne).
Qed.

End props_facts.

Section stringify_cycles.
Context (host : Host).

Lemma members_text_Return l ms :
  members_text l = Return ms → ∀ kr, kr ∈ l → ∃ o, kr.2 = Return o.
Proof.
  revert ms. induction l as [|[k r] l IH]; intros ms Hm kr Hin.
  - by apply elem_of_nil in Hin.
  - cbn in Hm. apply elem_of_cons in Hin as [->|Hin].
    + destruct r as [[s|]| |]; by eauto.
    + destruct r as [[s|]| |]; try done.
      * destruct (members_text l) eqn:Hl; try done. by eapply IH.
      * by eapply IH.
Qed.

Lemma members_text_Throw l e :
  members_text l = Throw e → ∃ kr, kr ∈ l ∧ kr.2 = Throw e.
Proof.
  induction l as [|[k r] l IH]; intros Hm; [done|]. cbn in Hm.
  destruct r as [[s|]|e'|]; try done.
  - destruct (members_text l) eqn:Hl; try done. injection Hm as ->.
    destruct IH as (kr & Hin & Hkr); [done|]. exists kr. split; [by right|done].
  - destruct IH as (kr & Hin & Hkr); [done|]. exists kr. split; [by right|done].
  - injection Hm as ->. eexists. split; [by left|done].
Qed.

Lemma members_text_Beyond l :
  members_text l = Beyond → ∃ kr, kr ∈ l ∧ kr.2 = Beyond.
Proof.
  induction l as [|[k r] l IH]; intros Hm; [done|]. cbn in Hm.
  destruct r as [[s|]|e'|]; try done.
  - destruct (members_text l) eqn:Hl; try done.
    destruct IH as (kr & Hin & Hkr); [done|]. exists kr. split; [by right|done].
  - destruct IH as (kr & Hin & Hkr); [done|]. exists kr. split; [by right|done].
  - eexists. split; [by left|done].
Qed.

Lemma elements_text_Return l ms :
  elements_text l = Return ms → ∀ r, r ∈ l → ∃ o, r = Return o.
Proof.
  revert ms. induction l as [|r0 l IH]; intros ms Hm r Hin.
  - by apply elem_of_nil in Hin.
  - cbn in Hm. destruct r0 as [o| |]; try done.
    destruct (elements_text l) eqn:Hl; try done.
    apply elem_of_cons in Hin as [->|Hin]; [by eauto|by eapply IH].
Qed.

Lemma elements_text_Throw l e :
  elements_text l = Throw e → ∃ r, r ∈ l ∧ r = Throw e.
Proof.
  induction l as [|r0 l IH]; intros Hm; [done|]. cbn in Hm.
  destruct r0 as [o|e'|]; try done.
  - destruct (elements_text l) eqn:Hl; try done. injection Hm as ->.
    destruct IH as (r & Hin & Hr); [done|]. exists r. split; [by right|done].
  - injection Hm as ->. eexists. split; [by left|done].
Qed.

Lemma elements_text_Beyond l :
  elements_text l = Beyond → ∃ r, r ∈ l ∧ r = Beyond.
Proof.
  induction l as [|r0 l IH]; intros Hm; [done|]. cbn in Hm.
  destruct r0 as [o|e'|]; try done.
  - destruct (elements_text l) eqn:Hl; try done.
    destruct IH as (r & Hin & Hr); [done|]. exists r. split; [by right|done].
  - eexists. split; [by left|done].
Qed.

Lemma wrap_Return open close r s : wrap open close r = Return s → ∃ ms, r = Return ms.
Proof. destruct r; by eauto. Qed.

Lemma wrap_Throw open close r e : wrap open close r = Throw e → r = Throw e.
Proof. destruct r; try done. by intros [= ->]. Qed.

Lemma wrap_Beyond open close r : wrap open close r = Beyond → r = Beyond.
Proof. by destruct r. Qed.

(** How an object that is not on the stack and has no callable [toJSON]
    ends: as the first of its held values that does not return, if any. *)
Lemma serialize_object n h st l o :
  h !! l = Some o →
  match SerializeJSONProperty host (S n) h st (JObject l) with
  | Return _ =>
      (l ∉ st) ∧ (∀ r, r ∈ held_results host n h st l o → ∃ x, r = Return x)
  | Throw e =>
      ((l ∈ st) ∧ e = TypeError circular_message)
      ∨ ((l ∉ st) ∧ (Throw e) ∈ held_results host n h st l o)
  | Beyond =>
      match o with Plain _ props => callable_toJSON props = true | Array _ => False end
      ∨ ((l ∉ st) ∧ Beyond ∈ held_results host n h st l o)
  end.
Proof.
  intros Hl. unfold held_results. cbn [SerializeJSONProperty]. rewrite Hl.
  destruct o as [kind props|elems]; cbn [held].
  - destruct (callable_toJSON props); [by left|].
    case_bool_decide as Hst; [by left|].
    destruct (wrap _ _ _) as [x|e|] eqn:Hw.
    + apply wrap_Return in Hw as [ms Hms]. split; [done|].
      intros r Hr. apply list_elem_of_fmap in Hr as (v & -> & Hv).
      apply list_elem_of_fmap in Hv as ([k v'] & Heq & Hkv). cbn in Heq. subst v.
      apply (members_text_Return _ _ Hms
               (k, SerializeJSONProperty host n h (l :: st) v')).
      apply list_elem_of_fmap. by exists (k, v').
    + apply wrap_Throw, members_text_Throw in Hw as ([k r] & Hin & Hr).
      apply list_elem_of_fmap in Hin as ([k' v] & Heq & Hkv).
      cbn in Heq, Hr. injection Heq as -> ->.
      right. split; [done|]. rewrite <- Hr.
      apply list_elem_of_fmap_2, list_elem_of_fmap. by exists (k', v).
    + apply wrap_Beyond, members_text_Beyond in Hw as ([k r] & Hin & Hr).
      apply list_elem_of_fmap in Hin as ([k' v] & Heq & Hkv).
      cbn in Heq, Hr. injection Heq as -> ->.
      right. split; [done|]. rewrite <- Hr.
      apply list_elem_of_fmap_2, list_elem_of_fmap. by exists (k', v).
  - case_bool_decide as Hst; [by left|].
    destruct (wrap _ _ _) as [x|e|] eqn:Hw.
    + apply wrap_Return in Hw as [ms Hms]. split; [done|].
      intros r Hr. by eapply elements_text_Return.
    + apply wrap_Throw, elements_text_Throw in Hw as (r & Hin & ->). by right.
    + apply wrap_Beyond, elements_text_Beyond in Hw as (r & Hin & ->). by right.
Qed.
Lemma held_results_elem n h st l o r :
  r ∈ held_results host n h st l o →
  ∃ v, v ∈ held o ∧ r = SerializeJSONProperty host n h (l :: st) v.
Proof.
  unfold held_results. intros (v & -> & Hv)%list_elem_of_fmap. by exists v.
Qed.

Lemma serialize_fuel n h st v r :
  SerializeJSONProperty host n h st v = Return r → ∃ n', n = S n'.
Proof. destruct n; [done|by eauto]. Qed.

(** An object whose serialization returns is not on the stack, and the
    serialization of each value it holds, with the object on the stack,
    returns too. *)
Lemma serialize_Return_children n h st l r :
  SerializeJSONProperty host n h st (JObject l) = Return r →
  ∃ n' o,
    n = S n' ∧ h !! l = Some o ∧ (l ∉ st)
    ∧ (∀ v, v ∈ held o → ∃ r', SerializeJSONProperty host n' h (l :: st) v = Return r').
Proof.
  intros Hr. destruct (serialize_fuel _ _ _ _ _ Hr) as [n' ->].
  destruct (h !! l) as [o|] eqn:Hl.
  - pose proof (serialize_object n' h st l o Hl) as Ho. rewrite Hr in Ho.
    destruct Ho as [Hst Hall]. exists n', o. repeat split; try done.
    intros v Hv. destruct (Hall (SerializeJSONProperty host n' h (l :: st) v)) as [x Hx].
    + unfold held_results. by apply list_elem_of_fmap_2.
    + by exists x.
  - cbn in Hr. by rewrite Hl in Hr.
Qed.

(** While an object is being serialized, nothing reached from it whose
    serialization returns is on the stack. *)
Lemma serialize_Return_off_stack h l l2 :
  rtc (holds h) l l2 →
  ∀ n st r x,
    SerializeJSONProperty host n h st (JObject l) = Return r → x ∈ st → l2 ≠ x.
Proof.
  induction 1 as [l|l y l2 Hstep _ IH]; intros n st r x Hr Hx.
  - destruct (serialize_Return_children _ _ _ _ _ Hr) as (n' & o & _ & _ & Hst & _).
    by intros ->.
  - destruct (serialize_Return_children _ _ _ _ _ Hr) as (n' & o & -> & Hl & Hst & Hall).
    destruct Hstep as (o' & Hl' & Hy). rewrite Hl in Hl'. injection Hl' as <-.
    destruct (Hall _ Hy) as [r' Hr'].
    eapply IH; [exact Hr'|]. by right.
Qed.

(** The serialization of an object that holds itself, directly or through
    others, does not return. *)
Lemma serialize_cycle_no_Return h l n st r :
  tc (holds h) l l → SerializeJSONProperty host n h st (JObject l) ≠ Return r.
Proof.
  intros Htc Hr.
  assert (∃ y, holds h l y ∧ rtc (holds h) y l) as (y & Hstep & Hback).
  { inversion Htc as [? ? Hone|? y ? Hone Hrest]; subst.
    - by exists l.
    - exists y. split; [done|]. by apply tc_rtc. }
  destruct (serialize_Return_children _ _ _ _ _ Hr) as (n' & o & -> & Hl & Hst & Hall).
  destruct Hstep as (o' & Hl' & Hy). rewrite Hl in Hl'. injection Hl' as <-.
  destruct (Hall _ Hy) as [r' Hr'].
  eapply (serialize_Return_off_stack h y l Hback); [exact Hr'| |done]. by left.
Qed.

Lemma serialize_Return_reach h l0 l :
  rtc (holds h) l0 l →
  ∀ n st r,
    SerializeJSONProperty host n h st (JObject l0) = Return r →
    ∃ n' st' r', SerializeJSONProperty host n' h st' (JObject l) = Return r'.
Proof.
  induction 1 as [l|l0 y l Hstep _ IH]; intros n st r Hr; [by eauto|].
  destruct (serialize_Return_children _ _ _ _ _ Hr) as (n' & o & -> & Hl & Hst & Hall).
  destruct Hstep as (o' & Hl' & Hy). rewrite Hl in Hl'. injection Hl' as <-.
  destruct (Hall _ Hy) as [r' Hr']. by eapply IH.
Qed.

(** The only exception the serialization raises is the one for a cycle. *)
Lemma serialize_Throw n h :
  ∀ st v e,
    SerializeJSONProperty host n h st v = Throw e → e = TypeError circular_message.
Proof.
  induction n as [|n IH]; intros st v e He; [done|].
  destruct v as [| |[|]|x|s| |l]; try done.
  - cbn in He. destruct (is_finite x); [|done]. by destruct (Number_toString host x).
  - destruct (h !! l) as [o|] eqn:Hl.
    + pose proof (serialize_object n h st l o Hl) as Ho. rewrite He in Ho.
      destruct Ho as [[_ ->]|[_ Hin]]; [done|].
      apply held_results_elem in Hin as (v & _ & Hv). by eapply IH.
    + cbn in He. by rewrite Hl in He.
Qed.

(** A stack of distinct objects of the store is no longer than the store. *)
Lemma stack_bound (h : store) (st : list loc) :
  NoDup st → (∀ x, x ∈ st → (x < length h)%nat) → (length st ≤ length h)%nat.
Proof.
  intros Hnd Hin.
  assert (Hsub : st ⊆+ seq 0 (length h)).
  { apply NoDup_submseteq; [done|].
    intros x Hx. apply elem_of_seq. specialize (Hin x Hx). lia. }
  apply submseteq_length in Hsub. by rewrite length_seq in Hsub.
Qed.

(** Within the modelled part, and with fuel for the objects that are not
    yet on the stack, the serialization is not [Beyond]. *)
Lemma serialize_not_Beyond h :
  modelled host h →
  ∀ n st v,
    printable host v → (∀ l, v = JObject l → (l < length h)%nat) →
    NoDup st → (∀ x, x ∈ st → (x < length h)%nat) →
    (length h < n + length st)%nat →
    SerializeJSONProperty host n h st v ≠ Beyond.
Proof.
  intros Hmod. induction n as [|n IH]; intros st v Hp Hv Hnd Hst Hlen.
  - pose proof (stack_bound h st Hnd Hst). lia.
  - destruct v as [| |[|]|x|s| |l]; try done.
    + cbn in Hp |- *. destruct (is_finite x); [|done].
      by destruct (Hp eq_refl) as [t ->].
    + destruct (lookup_lt_is_Some_2 h l (Hv l eq_refl)) as [o Hl].
      pose proof (Forall_lookup_1 _ _ _ _ Hmod Hl) as (Hrange & Hprint & Hto).
      pose proof (serialize_object n h st l o Hl) as Ho.
      destruct (SerializeJSONProperty host (S n) h st (JObject l)); try done.
      destruct Ho as [Hcall|[Hnot Hin]].
      * destruct o; [by rewrite Hto in Hcall|done].
      * apply held_results_elem in Hin as (v & Hheld & Hb). symmetry in Hb.
        intros _. refine (IH (l :: st) v _ _ _ _ _ Hb).
        -- rewrite Forall_forall in Hprint. by apply Hprint.
        -- intros l' ->. by apply Hrange.
        -- by apply NoDup_cons.
        -- intros x [->|Hx]%elem_of_cons; [by eapply lookup_lt_Some|by apply Hst].
        -- cbn. lia.
Qed.

End stringify_cycles.

(** * The claims about [Rectangle], [getJSON] and [fromJSON] *)

Section object_claims.

(** C6, as stated, fails: [fromJSON(Circle.prototype, '{}')] returns a
    [Circle] that still has the field [radius] its constructor left on it,
    while the parsed tree of [{}] has no field. *)
Lemma fromJSON_keeps_default_fields :
  ∃ h' props,
    fromJSON example_host Circle_prototype "{}" [] = (Return (JObject 0%nat), h')
    ∧ JSON_parse example_host "{}" = Return (TObject [])
    ∧ tree_keys (TObject []) = []
    ∧ props_of h' (JObject 0%nat) = Some props
    ∧ props.*1 = ["radius"]
    ∧ props.*1 ≠ tree_keys (TObject []).
Proof. do 2 eexists. repeat split; try reflexivity. discriminate. Qed.

(** C6, amended: for every template kind and every text that parses to a
    tree without an own key [__proto__], [fromJSON] returns a new object of
    the template's kind whose fields are the kind's default fields overlaid
    with the fields of the parsed tree: a field of the parsed tree is on the
    result with the parsed value, and a default field absent from the parsed
    tree stays on the result with its default value. *)
Theorem fromJSON_overlays_parsed_fields host proto json t h :
  JSON_parse host json = Return t → "__proto__" ∉ tree_keys t →
  ∃ h' parsed entries props,
    fromJSON host proto json h = (Return (JObject (length h)), h')
    ∧ fst (materialize t (h ++ [Plain (name (constructor proto))
                                      (initial (constructor proto))]))
      = Return parsed
    ∧ own_enumerable h' parsed = Some entries
    ∧ (∀ k, k ∈ entries.*1 ↔ k ∈ tree_keys t)
    ∧ kind_of h' (JObject (length h)) = Some (name (constructor proto))
    ∧ props_of h' (JObject (length h)) = Some props
    ∧ ∀ k, lookup_prop k props =
             match lookup_prop k entries with
             | Some v => Some v
             | None => lookup_prop k (initial (constructor proto))
             end.
Proof.
  intros Hparse Hproto.
  set (o := Plain (name (constructor proto)) (initial (constructor proto))).
  destruct (materialize_fields t (h ++ [o]))
    as (parsed & hn & entries & Hrun & Hown & Hnd & Hkeys & Hfresh).
  assert (Hl : ((h ++ [o]) ++ hn) !! length h = Some o).
  { rewrite <- app_assoc. by apply list_lookup_middle. }
  assert (Hlt : (length h < length ((h ++ [o]) ++ hn))%nat).
  { by eapply lookup_lt_Some. }
  exists (<[length h := Plain (name (constructor proto))
                          (set_props entries (initial (constructor proto)))]>
            ((h ++ [o]) ++ hn)), parsed, entries,
    (set_props entries (initial (constructor proto))).
  split; [|split; [|split; [|split; [|split; [|split]]]]].
  - unfold fromJSON, bind, new_object, alloc, JSON_parse_value.
    rewrite Hparse. fold o. rewrite Hrun. unfold Object_assign.
    rewrite Hl, Hown. rewrite bool_decide_eq_false_2; [done|].
    by rewrite Hkeys.
  - by rewrite Hrun.
  - rewrite own_enumerable_insert_ne; [done|].
    intros l' -> ->. specialize (Hfresh _ eq_refl). rewrite length_app in Hfresh.
    cbn in Hfresh. lia.
  - done.
  - cbn. by rewrite list_lookup_insert_eq.
  - cbn. by rewrite list_lookup_insert_eq.
  - intros k. by apply lookup_set_props.
Qed.

(** An instance: [fromJSON(Circle.prototype, '{"radius":10}')]. *)
Lemma fromJSON_overlays_parsed_fields_witness :
  ∃ h' parsed entries props,
    fromJSON example_host Circle_prototype radius_10_text [] = (Return (JObject 0%nat), h')
    ∧ fst (materialize (TObject [("radius", TNumber 10%float)])
             [Plain "Circle" [("radius", JUndefined)]])
      = Return parsed
    ∧ own_enumerable h' parsed = Some entries
    ∧ (∀ k, k ∈ entries.*1 ↔ k ∈ ["radius"])
    ∧ kind_of h' (JObject 0%nat) = Some "Circle"
    ∧ props_of h' (JObject 0%nat) = Some props
    ∧ ∀ k, lookup_prop k props =
             match lookup_prop k entries with
             | Some v => Some v
             | None => lookup_prop k [("radius", JUndefined)]
             end.
Proof.
  apply (fromJSON_overlays_parsed_fields example_host Circle_prototype
           radius_10_text (TObject [("radius", TNumber 10%float)]) []).
  - reflexivity.
  - vm_compute. intros H. inversion H as [|? ? ? H']. inversion H'.
Defined.

(** C7, as stated, fails: [getJSON] of a function at the top level raises
    nothing; [JSON.stringify] answers [undefined], which [getJSON] returns. *)
Lemma getJSON_of_function_returns_undefined :
  getJSON example_host JFunction [] = (Return JUndefined, [])
  ∧ (∀ e, fst (getJSON example_host JFunction []) ≠ Throw e)
  ∧ (∀ s, JUndefined ≠ JString s).
Proof. repeat split; discriminate. Qed.

(** C7, amended: [getJSON(value)] raises, with the engine's [TypeError] for
    a circular structure, when [value] contains a cyclic reference; when
    [value] is a function at the top level it raises nothing and returns
    [undefined].  In both cases the store is left as it was. *)
Theorem getJSON_raises_on_cycle host h v :
  modelled host h → cyclic h v →
  getJSON host v h = (Throw (TypeError circular_message), h)
  ∧ getJSON host JFunction h = (Return JUndefined, h).
Proof.
  intros Hmod (l0 & l & -> & Hreach & Hcycle). split; [|done].
  unfold getJSON, JSON_stringify.
  destruct (SerializeJSONProperty host (S (length h)) h [] (JObject l0))
    as [r|e|] eqn:Hs.
  - destruct (serialize_Return_reach host h l0 l Hreach _ _ _ Hs) as (n' & st' & r' & Hr').
    by destruct (serialize_cycle_no_Return host h l n' st' r' Hcycle).
  - by rewrite (serialize_Throw host _ _ _ _ _ Hs).
  - exfalso. revert Hs. apply (serialize_not_Beyond host h Hmod); try done.
    + intros l' [= <-].
      assert (∃ y, holds h l0 y) as (y & o & Hl & _).
      { apply rtc_inv in Hreach as [->|(y & Hy & _)]; [|by eauto].
        inversion Hcycle; by eauto. }
      by eapply lookup_lt_Some.
    + apply NoDup_nil_2.
    + by intros x Hx%elem_of_nil.
    + cbn. lia.
Qed.

(** An instance: the object that contains itself. *)
Lemma getJSON_raises_on_cycle_witness :
  getJSON example_host (JObject 0%nat) store_self
  = (Throw (TypeError circular_message), store_self)
  ∧ getJSON example_host JFunction store_self = (Return JUndefined, store_self).
Proof.
  apply (getJSON_raises_on_cycle example_host store_self (JObject 0%nat)).
  - apply Forall_singleton. split; [|split].
    + intros l Hl. apply list_elem_of_singleton in Hl. injection Hl as ->. cbn. lia.
    + by apply Forall_singleton.
    + reflexivity.
  - exists 0%nat, 0%nat. split; [reflexivity|]. split; [apply rtc_refl|].
    apply tc_once. eexists. split; [reflexivity|]. by apply list_elem_of_singleton.
Defined.

(** C9: [Rectangle(w, h)] returns an object with [width] equal to [w] and
    [height] equal to [h]; [getArea()] returns the product of the width and
    the height the object has at the call, so [w * h] at first, and after
    the caller assigns to [width] or [height] the product with the new
    value; [Rectangle(10, 20).getArea()] is 200. *)
Theorem Rectangle_getArea_current_fields (w h : float) :
  width (Rectangle w h) = w
  ∧ height (Rectangle w h) = h
  ∧ getArea (Rectangle w h) = (w * h)%float
  ∧ (∀ r, getArea r = (width r * height r)%float)
  ∧ (∀ r x, getArea (set_width x r) = (x * height r)%float
            ∧ getArea (set_height x r) = (width r * x)%float)
  ∧ (∀ x y, getArea (set_height y (set_width x (Rectangle w h))) = (x * y)%float)
  ∧ getArea (Rectangle 10 20) = 200%float.
Proof. repeat split. Qed.
End object_claims.

(** * Further properties of the selector builder *)

Section grammar_facts.
Import ITEM_TYPES MyCssSelector.

Lemma part_type_inj p q : part_type p = part_type q → p = q.
Proof. by destruct p, q. Qed.

Lemma count_type_app t l1 l2 :
  count_type t (l1 ++ l2) = (count_type t l1 + count_type t l2)%nat.
Proof. unfold count_type. by rewrite filter_app, length_app. Qed.

Lemma count_type_singleton t item :
  count_type t [item] = if decide (type item = t) then 1%nat else 0%nat.
Proof.
  unfold count_type. case_decide as Ht.
  - by rewrite filter_cons_True.
  - by rewrite filter_cons_False.
Qed.

Lemma count_type_pos t l item : item ∈ l → type item = t → (0 < count_type t l)%nat.
Proof.
  intros Hin Ht. apply list_elem_of_split in Hin as (l1 & l2 & ->).
  rewrite count_type_app. change (item :: l2) with ([item] ++ l2).
  rewrite count_type_app, count_type_singleton, decide_True by done. lia.
Qed.

(** In an ordered sequence no type exceeds that of the last item. *)
Lemma in_order_last l lastItem x :
  in_order l → last l = Some lastItem → x ∈ l → type x ≤ type lastItem.
Proof.
  intros Hord Hlast Hx. apply last_Some in Hlast as [l' ->].
  apply elem_of_app in Hx as [Hx|Hx].
  - apply (StronglySorted_app_1_elem_of (λ a b : Item, type a ≤ type b)
             l' [lastItem]); [done..|].
    by apply list_elem_of_singleton.
  - apply list_elem_of_singleton in Hx. by subst.
Qed.

Lemma grammatical_nil : grammatical [].
Proof. split; [constructor|]. intros p _. cbn. lia. Qed.

Lemma grammatical_prefix l1 l2 : grammatical (l1 ++ l2) → grammatical l1.
Proof.
  intros [Hord Hcount]. split; [by eapply StronglySorted_app_1_l|].
  intros p Hp. specialize (Hcount p Hp). rewrite count_type_app in Hcount. lia.
Qed.

(** What [validate] decides, for an instance whose sequence is
    grammatical: whether the sequence stays so with the new fragment. *)
Lemma validate_grammatical o p v :
  disposableTypes o = [0; 1; 5] → grammatical (items o) →
  (validate o (part_type p) = Return ()
   ↔ grammatical (items o ++ [part_item (p, v)])).
Proof.
  intros Hd [Hord Hcount]. rewrite validate_unfold, singleton_disposable by done.
  split.
  - intros Hv. split.
    + apply StronglySorted_app_2; [|done|repeat constructor].
      intros x1 x2 Hx1 ->%list_elem_of_singleton. cbn.
      destruct (last (items o)) as [lastItem|] eqn:Hlast.
      * pose proof (in_order_last _ _ _ Hord Hlast Hx1).
        destruct (singleton p && _); [done|].
        destruct (Z.ltb_spec (part_type p) (type lastItem)) as [|Hle]; [done|].
        by apply (Z.le_trans _ (type lastItem)).
      * apply last_None in Hlast. rewrite Hlast in Hx1. by apply elem_of_nil in Hx1.
    + intros q Hq. rewrite count_type_app, count_type_singleton.
      cbn [part_item type fst].
      specialize (Hcount q Hq).
      destruct (decide (part_type p = part_type q)) as [Hpq|Hpq]; [|lia].
      apply part_type_inj in Hpq as ->. rewrite Hq in Hv. cbn in Hv.
      case_bool_decide as H1; [done|]. lia.
  - intros [Hord' Hcount']. destruct (singleton p) eqn:Hp; cbn [andb].
    + specialize (Hcount' p Hp).
      rewrite count_type_app, count_type_singleton, decide_True in Hcount' by done.
      rewrite bool_decide_eq_false_2 by lia.
      destruct (last (items o)) as [lastItem|] eqn:Hlast; [|done].
      apply last_Some_elem_of in Hlast.
      pose proof (StronglySorted_app_1_elem_of (λ a b : Item, type a ≤ type b)
                    _ _ lastItem (part_item (p, v)) Hord' Hlast) as Hle.
      cbn in Hle. destruct (Z.ltb_spec (part_type p) (type lastItem)); [|done].
      specialize (Hle ltac:(by apply list_elem_of_singleton)). lia.
    + destruct (last (items o)) as [lastItem|] eqn:Hlast; [|done].
      apply last_Some_elem_of in Hlast.
      pose proof (StronglySorted_app_1_elem_of (λ a b : Item, type a ≤ type b)
                    _ _ lastItem (part_item (p, v)) Hord' Hlast) as Hle.
      cbn in Hle. destruct (Z.ltb_spec (part_type p) (type lastItem)); [|done].
      specialize (Hle ltac:(by apply list_elem_of_singleton)). lia.
Qed.

Lemma validate_not_Beyond o t : disposableTypes o = [0; 1; 5] → validate o t ≠ Beyond.
Proof.
  intros Hd. rewrite validate_unfold by done.
  destruct (_ && _); [done|]. destruct (last (items o)); [|done].
  by destruct (_ <? _).
Qed.

(** What holds of every instance in a store made by appends alone. *)
Lemma built_by_appends_grammatical h :
  built_by_appends h →
  Forall (λ o, disposableTypes o = [0; 1; 5] ∧ grammatical (items o)) h.
Proof.
  induction 1 as [|h p [|r] v Hb IH Hin]; [by apply Forall_nil| |].
  - rewrite append_this_add, this_add_facade_run by by destruct p.
    cbn [snd]. apply Forall_app. split; [done|].
    apply Forall_singleton. split; [done|]. cbn [items].
    rewrite newValue_part.
    apply (validate_grammatical
             {| items := []; disposableTypes := [0; 1; 5] |} p v);
      [done|apply grammatical_nil|]. apply validate_fresh.
  - cbn [in_store] in Hin. apply lookup_lt_is_Some_2 in Hin as [o Ho].
    destruct (Forall_lookup_1 _ _ _ _ IH Ho) as [Hd Hg].
    rewrite append_this_add. cbn [cssSelectorBuilder.this_add].
    rewrite (add_part_run h r o) by by destruct p.
    destruct (validate o (part_type p)) as [[]| |] eqn:Hv; [|done..]. cbn [snd].
    apply Forall_insert; [done|]. split; [done|]. cbn [items].
    rewrite newValue_part. by apply (validate_grammatical o p v).
Qed.
End grammar_facts.

Section builder_extras.
Import ITEM_TYPES MyCssSelector.

(** A chain of appends on an instance whose sequence is grammatical
    returns exactly when the sequence stays grammatical with the
    fragments of the chain. *)
Lemma chain_inst_returns_iff l :
  ∀ h r o,
    h !! r = Some o → disposableTypes o = [0; 1; 5] → grammatical (items o) →
    ((∃ this' h', chain (Inst r) l h = (Return this', h'))
     ↔ grammatical (items o ++ map part_item l)).
Proof.
  induction l as [|[p v] l IH]; intros h r o Hl Hd Hg.
  - cbn. rewrite app_nil_r. split; [done|]. intros _. by eexists _, _.
  - cbn [chain map]. unfold bind.
    rewrite append_this_add. cbn [cssSelectorBuilder.this_add].
    rewrite (add_part_run h r o) by by destruct p.
    pose proof (validate_grammatical o p v Hd Hg) as Hstep.
    pose proof (validate_not_Beyond o (part_type p) Hd) as Hnb.
    destruct (validate o (part_type p)) as [[]|e|] eqn:Hv; [| |done].
    + rewrite newValue_part.
      rewrite (IH _ r {| items := items o ++ [part_item (p, v)];
                         disposableTypes := disposableTypes o |});
        [| apply list_lookup_insert_eq; by eapply lookup_lt_Some
         | done | by apply Hstep ].
      cbn [items]. by rewrite <- app_assoc.
    + split; [by intros (? & ? & ?)|]. intros Hg'.
      assert (Hpre : grammatical (items o ++ [part_item (p, v)])).
      { apply (grammatical_prefix _ (map part_item l)). by rewrite <- app_assoc. }
      by apply Hstep in Hpre.
Qed.

(** X1: a method called on the facade itself never fails: it returns a new
    builder, which holds the one fragment, and leaves every builder that
    exists as it is. *)
Theorem facade_call_makes_new_builder p v h :
  ∃ h',
    append p Facade v h = (Return (length h), h')
    ∧ h' !! length h
      = Some {| items := [part_item (p, v)]; disposableTypes := [0; 1; 5] |}
    ∧ length h' = S (length h)
    ∧ ∀ r o, h !! r = Some o → h' !! r = Some o.
Proof.
  eexists. rewrite append_this_add, this_add_facade_run by by destruct p.
  rewrite newValue_part. split; [done|]. split; [by apply list_lookup_middle|].
  split; [rewrite length_app; cbn; lia|].
  intros r o Hr. by apply lookup_app_l_Some.
Qed.

(** X2: on a builder of a reachable store, an append returns exactly when
    the kind is not a singleton kind present exactly once and no kind
    later than it is at the end of the sequence; otherwise it throws and
    the store is as before. *)
Theorem append_returns_iff p r v h o :
  built h → h !! r = Some o →
  ((∃ h', append p (Inst r) v h = (Return r, h'))
   ↔ ¬ (singleton p = true ∧ count_type (part_type p) (items o) = 1%nat)
     ∧ ∀ lastItem, last (items o) = Some lastItem → type lastItem ≤ part_type p)
  ∧ ((∃ h', append p (Inst r) v h = (Return r, h'))
     ∨ (∃ e, append p (Inst r) v h = (Throw e, h))).
Proof.
  intros Hb Hl. destruct (wf_lookup _ _ _ (built_wf _ Hb) Hl) as [Hd _].
  rewrite append_this_add. cbn [cssSelectorBuilder.this_add].
  rewrite (add_part_run h r o) by by destruct p.
  rewrite validate_unfold, singleton_disposable by done.
  destruct (singleton p) eqn:Hs; cbn [andb];
    [case_bool_decide as Hc|]; (split; [split|]).
  - by intros [? ?].
  - intros [Hno _]. by destruct Hno.
  - right. by eexists.
  - destruct (last (items o)) as [lastItem|];
      [|intros _; split; [by intros [? ?]|done]].
    destruct (Z.ltb_spec (part_type p) (type lastItem)); [by intros [? ?]|].
    intros _. split; [by intros [? ?]|]. by intros ? [= <-].
  - intros [_ Hlast]. destruct (last (items o)) as [lastItem|]; [|by eexists].
    specialize (Hlast _ eq_refl).
    destruct (Z.ltb_spec (part_type p) (type lastItem)); [lia|by eexists].
  - destruct (last (items o)) as [lastItem|]; [|left; by eexists].
    destruct (_ <? _); [right|left]; by eexists.
  - destruct (last (items o)) as [lastItem|];
      [|intros _; split; [by intros [? ?]|done]].
    destruct (Z.ltb_spec (part_type p) (type lastItem)); [by intros [? ?]|].
    intros _. split; [by intros [? ?]|]. by intros ? [= <-].
  - intros [_ Hlast]. destruct (last (items o)) as [lastItem|]; [|by eexists].
    specialize (Hlast _ eq_refl).
    destruct (Z.ltb_spec (part_type p) (type lastItem)); [lia|by eexists].
  - destruct (last (items o)) as [lastItem|]; [|left; by eexists].
    destruct (_ <? _); [right|left]; by eexists.
Qed.

(** An instance: [class('a')] after [id('x')] returns. *)
Lemma append_returns_iff_witness :
  ∃ h', append class_part (Inst 0%nat) "a" (snd (examples.only_id []))
        = (Return 0%nat, h').
Proof.
  destruct (append_returns_iff class_part 0%nat "a" (snd (examples.only_id []))
              {| items := [ {| value := Str "#x"; type := ID |} ];
                 disposableTypes := [0; 1; 5] |}) as [[_ Hback] _].
  - apply (built_call [] (call_append id_part Facade "x")); [apply built_empty|exact I].
  - reflexivity.
  - apply Hback. split.
    + intros [Hs _]. discriminate Hs.
    + intros lastItem [= <-]. cbn. unfold ID, CLASS. lia.
Defined.

(** X3: an append that returns gives back the builder it was called on,
    has added to it exactly the one fragment, at the end, and has touched no
    other builder. *)
Theorem append_adds_one_fragment p r v h r' h' :
  append p (Inst r) v h = (Return r', h') →
  r' = r
  ∧ length h' = length h
  ∧ (∀ r2, r2 ≠ r → h' !! r2 = h !! r2)
  ∧ ∃ o, h !! r = Some o
         ∧ h' !! r = Some {| items := items o ++ [part_item (p, v)];
                             disposableTypes := disposableTypes o |}.
Proof.
  rewrite append_this_add. cbn [cssSelectorBuilder.this_add].
  destruct (h !! r) as [o|] eqn:Hl.
  - rewrite (add_part_run h r o) by by destruct p.
    destruct (validate o (part_type p)); [|done..]. intros [= <- <-].
    split; [done|]. split; [by rewrite length_insert|].
    split; [intros r2 Hr2; by rewrite list_lookup_insert_ne|].
    exists o. split; [done|]. rewrite newValue_part.
    apply list_lookup_insert_eq. by eapply lookup_lt_Some.
  - unfold add, bind, read.
    replace (negb (part_type p =? SELECTOR)) with true by by destruct p.
    by rewrite Hl.
Qed.

(** An instance: [class('a')] after [id('x')]. *)
Lemma append_adds_one_fragment_witness :
  ∃ o, snd (examples.only_id []) !! 0%nat = Some o
       ∧ snd (append class_part (Inst 0%nat) "a" (snd (examples.only_id []))) !! 0%nat
         = Some {| items := items o ++ [part_item (class_part, "a")];
                   disposableTypes := disposableTypes o |}.
Proof.
  destruct (append_adds_one_fragment class_part 0%nat "a"
              (snd (examples.only_id [])) 0%nat
              (snd (append class_part (Inst 0%nat) "a" (snd (examples.only_id [])))))
    as (_ & _ & _ & o & Ho & Ho').
  - reflexivity.
  - exists o. by split.
Defined.

(** X4: as long as builders are made by the appending methods alone,
    without [combine], the sequence of every builder is in the order
    element, id, class, attribute, pseudo-class, pseudo-element, with at
    most one element, one id and one pseudo-element. *)
Theorem appends_keep_grammar h r o :
  built_by_appends h → h !! r = Some o → grammatical (items o).
Proof.
  intros Hb Hl.
  by destruct (Forall_lookup_1 _ _ _ _ (built_by_appends_grammatical h Hb) Hl).
Qed.

(** An instance: [element('a').id('b')]. *)
Lemma appends_keep_grammar_witness :
  grammatical [ {| value := Str "a"; type := ELEMENT |};
                {| value := Str "#b"; type := ID |} ].
Proof.
  apply (appends_keep_grammar (snd (examples.element_then_id [])) 0%nat
           {| items := [ {| value := Str "a"; type := ELEMENT |};
                         {| value := Str "#b"; type := ID |} ];
              disposableTypes := [0; 1; 5] |}).
  - apply (appends_call (snd (append element_part Facade "a" []))
             id_part (Inst 0%nat) "b").
    + apply (appends_call [] element_part Facade "a"); [apply appends_empty|exact I].
    + vm_compute. lia.
  - reflexivity.
Defined.

(** X5: on a builder made by the appending methods alone, appending a
    singleton kind (element, id, pseudo-element) of which a fragment is
    already in the sequence always throws the duplicate error, and the store
    is as before. *)
Theorem repeated_singleton_rejected p r v h o item :
  built_by_appends h → h !! r = Some o → singleton p = true →
  item ∈ items o → type item = part_type p →
  append p (Inst r) v h = (Throw DuplicateSelectorPartError, h).
Proof.
  intros Hb Hl Hs Hin Hty.
  destruct (Forall_lookup_1 _ _ _ _ (built_by_appends_grammatical h Hb) Hl)
    as [Hd [_ Hcount]].
  specialize (Hcount p Hs). pose proof (count_type_pos _ _ _ Hin Hty).
  rewrite append_this_add. cbn [cssSelectorBuilder.this_add].
  rewrite (add_part_run h r o) by by destruct p.
  rewrite validate_unfold, singleton_disposable, Hs by done. cbn [andb].
  rewrite bool_decide_eq_true_2; [done|lia].
Qed.

(** An instance: [element('a').id('b').id('c')]. *)
Lemma repeated_singleton_rejected_witness :
  append id_part (Inst 0%nat) "c" (snd (examples.element_then_id []))
  = (Throw DuplicateSelectorPartError, snd (examples.element_then_id [])).
Proof.
  apply (repeated_singleton_rejected id_part 0%nat "c"
           (snd (examples.element_then_id []))
           {| items := [ {| value := Str "a"; type := ELEMENT |};
                         {| value := Str "#b"; type := ID |} ];
              disposableTypes := [0; 1; 5] |}
           {| value := Str "#b"; type := ID |}).
  - apply (appends_call (snd (append element_part Facade "a" []))
             id_part (Inst 0%nat) "b").
    + apply (appends_call [] element_part Facade "a"); [apply appends_empty|exact I].
    + vm_compute. lia.
  - reflexivity.
  - reflexivity.
  - apply list_elem_of_further, list_elem_of_here.
  - reflexivity.
Defined.

(** X6: a chain of appends that starts at the facade returns exactly when
    its fragments are in the order of the grammar with each singleton kind
    at most once. *)
Theorem chain_returns_iff_grammatical l h :
  (∃ this' h', chain Facade l h = (Return this', h'))
  ↔ grammatical (map part_item l).
Proof.
  destruct l as [|[p v] l].
  - split; [intros _; apply grammatical_nil|]. intros _. by eexists _, _.
  - cbn [chain map]. unfold bind.
    rewrite append_this_add, this_add_facade_run by by destruct p.
    rewrite newValue_part.
    rewrite (chain_inst_returns_iff l _ (length h)
               {| items := [part_item (p, v)]; disposableTypes := [0; 1; 5] |});
      [done| by apply list_lookup_middle | done |].
    apply (validate_grammatical
             {| items := []; disposableTypes := [0; 1; 5] |} p v);
      [done|apply grammatical_nil|apply validate_fresh].
Qed.

(** X7: [combine(s, t, s)], with one builder as both operands, never
    throws on a builder of a reachable store: it leaves in [s] its
    fragments, the combinator, its fragments again and the combinator
    again. *)
Theorem combine_with_itself h s t o :
  built h → h !! s = Some o →
  cssSelectorBuilder.combine s t s h =
    (Return s,
     <[s := {| items := items o ++ [combinator_item t]
                        ++ items o ++ [combinator_item t];
               disposableTypes := disposableTypes o |}]> h).
Proof.
  intros Hb Hl.
  rewrite (combine_run h s s t o o);
    [| done | done | by eapply wf_lookup; [apply built_wf|] ].
  rewrite decide_True by done. by rewrite <- app_assoc.
Qed.

(** An instance: [element('div')] combined with itself. *)
Lemma combine_with_itself_witness :
  cssSelectorBuilder.combine 0%nat "+" 0%nat store_div =
    (Return 0%nat,
     [ {| items := [ {| value := Str "div"; type := ELEMENT |};
                     {| value := Str " + "; type := COMBINATOR |};
                     {| value := Str "div"; type := ELEMENT |};
                     {| value := Str " + "; type := COMBINATOR |} ];
          disposableTypes := [0; 1; 5] |} ]).
Proof.
  apply (combine_with_itself store_div 0%nat "+"
           {| items := [ {| value := Str "div"; type := ELEMENT |} ];
              disposableTypes := [0; 1; 5] |}).
  - apply (built_call [] (call_append element_part Facade "div"));
      [apply built_empty|exact I].
  - reflexivity.
Defined.

(** X8: for two distinct builders of a reachable store,
    [combine(L, t, R).stringify()] is [L.stringify()], a space, [t], a
    space, and [R.stringify()], and [R.stringify()] is as before; the
    nested example of the source's comment renders as the comment says. *)
Theorem combine_stringify h L R t sL sR :
  built h → L ≠ R →
  stringify L h = (Return sL, h) → stringify R h = (Return sR, h) →
  (∃ h',
     cssSelectorBuilder.combine L t R h = (Return L, h')
     ∧ stringify L h' = (Return (sL +:+ " " +:+ t +:+ " " +:+ sR), h')
     ∧ stringify R h' = (Return sR, h'))
  ∧ fst (source_comment_example [])
    = Return "div#main.container.draggable + table#data ~ tr:nth-of-type(even)   td:nth-of-type(even)".
Proof.
  intros Hb Hne HsL HsR. split; [|done].
  destruct (h !! L) as [oL|] eqn:HL;
    [|unfold stringify, bind, read in HsL; by rewrite HL in HsL].
  destruct (h !! R) as [oR|] eqn:HR;
    [|unfold stringify, bind, read in HsR; by rewrite HR in HsR].
  rewrite (stringify_run h L oL) in HsL by done. injection HsL as <-.
  rewrite (stringify_run h R oR) in HsR by done. injection HsR as <-.
  eexists. split; [|split].
  - rewrite (combine_run h L R t oL oR);
      [| done | done | by eapply wf_lookup; [apply built_wf|] ].
    by rewrite decide_False by done.
  - erewrite stringify_run;
      [| apply list_lookup_insert_eq; by eapply lookup_lt_Some ].
    cbn [items]. rewrite !map_app, !join_app. cbn [map value combinator_item join ToString].
    by rewrite !append_assoc.
  - erewrite stringify_run; [done|]. by rewrite list_lookup_insert_ne.
Qed.

(** An instance: [element('div')] and [element('table')] combined. *)
Lemma combine_stringify_witness :
  ∃ h',
    cssSelectorBuilder.combine 0%nat "+" 1%nat store_div_table = (Return 0%nat, h')
    ∧ stringify 0%nat h' = (Return "div + table", h')
    ∧ stringify 1%nat h' = (Return "table", h').
Proof.
  destruct (combine_stringify store_div_table 0%nat 1%nat "+" "div" "table")
    as [Hrun _].
  - apply built_store_div_table.
  - lia.
  - reflexivity.
  - reflexivity.
  - exact Hrun.
Defined.
End builder_extras.

(** * Further properties of the JSON helpers *)

Section json_extras.

(** A value that is no object is serialized without an exception. *)
Lemma serialize_Throw_object host n h st v e :
  SerializeJSONProperty host n h st v = Throw e → ∃ l, v = JObject l.
Proof.
  destruct n; [done|]. destruct v as [| |[|]|x|s| |l]; try done; [|by eauto].
  cbn. destruct (is_finite x); [|done]. by destruct (Number_toString host x).
Qed.

(** When the objects on the stack all lead to the object being serialized,
    an exception shows a cycle that the object reaches. *)
Lemma serialize_Throw_cycle host h n :
  ∀ st l e,
    SerializeJSONProperty host n h st (JObject l) = Throw e →
    (∀ x, x ∈ st → tc (holds h) x l) →
    ∃ l', rtc (holds h) l l' ∧ tc (holds h) l' l'.
Proof.
  induction n as [|n IH]; intros st l e He Hst; [done|].
  destruct (h !! l) as [o|] eqn:Hl; [|cbn in He; by rewrite Hl in He].
  pose proof (serialize_object host n h st l o Hl) as Ho. rewrite He in Ho.
  destruct Ho as [[Hin _]|[_ Hin]].
  - exists l. split; [apply rtc_refl|by apply Hst].
  - apply held_results_elem in Hin as (v & Hv & Hthrow). symmetry in Hthrow.
    destruct (serialize_Throw_object _ _ _ _ _ _ Hthrow) as [l2 ->].
    assert (Hstep : holds h l l2) by (by exists o).
    destruct (IH (l :: st) l2 e Hthrow) as (l' & Hreach & Hcycle).
    + intros x [->|Hx]%elem_of_cons; [by apply tc_once|].
      eapply tc_r; [by apply Hst|done].
    + exists l'. split; [by eapply rtc_l|done].
Qed.

(** [undefined] is the answer for [undefined] and for a function only. *)
Lemma serialize_Return_None host n h st v :
  SerializeJSONProperty host n h st v = Return None →
  v = JUndefined ∨ v = JFunction.
Proof.
  destruct n; [done|]. destruct v as [| |[|]|x|s| |l]; try done; try by eauto.
  - cbn. destruct (is_finite x); [|done]. by destruct (Number_toString host x).
  - cbn. destruct (h !! l) as [[kind props|elems]|]; [| |done].
    + destruct (callable_toJSON props); [done|]. case_bool_decide; [done|].
      by destruct (members_text _).
    + case_bool_decide; [done|]. by destruct (elements_text _).
Qed.

Lemma serialize_Return_Some host n h st v s :
  SerializeJSONProperty host n h st v = Return (Some s) →
  v ≠ JUndefined ∧ v ≠ JFunction.
Proof. destruct n; [done|]. by destruct v. Qed.

(** X9: on a value of the modelled part, [getJSON] throws exactly when the
    value contains a cyclic reference, and then it is the [TypeError] for a
    circular structure; otherwise it returns, [undefined] for [undefined]
    and for a function at the top level, a string for everything else; the
    store is left as it was. *)
Theorem getJSON_outcome host h v :
  modelled host h → printable host v →
  (∀ l, v = JObject l → (l < length h)%nat) →
  (cyclic h v ∧ getJSON host v h = (Throw (TypeError circular_message), h))
  ∨ (¬ cyclic h v
     ∧ ∃ r, getJSON host v h = (Return r, h)
            ∧ (((v = JUndefined ∨ v = JFunction) ∧ r = JUndefined)
               ∨ (v ≠ JUndefined ∧ v ≠ JFunction ∧ ∃ s, r = JString s))).
Proof.
  intros Hmod Hp Hv. unfold getJSON, JSON_stringify.
  destruct (SerializeJSONProperty host (S (length h)) h [] v) as [r|e|] eqn:Hs.
  - right. split.
    + intros (l0 & l & -> & Hreach & Hcycle).
      destruct (serialize_Return_reach host h l0 l Hreach _ _ _ Hs)
        as (n' & st' & r' & Hr').
      by destruct (serialize_cycle_no_Return host h l n' st' r' Hcycle).
    + destruct r as [s|].
      * exists (JString s). split; [done|]. right.
        destruct (serialize_Return_Some _ _ _ _ _ _ Hs). by eauto.
      * exists JUndefined. split; [done|]. left.
        split; [|done]. by eapply serialize_Return_None.
  - left. rewrite (serialize_Throw host _ _ _ _ _ Hs). split; [|done].
    destruct (serialize_Throw_object _ _ _ _ _ _ Hs) as [l0 ->].
    destruct (serialize_Throw_cycle host h _ [] l0 e Hs) as (l' & Hreach & Hcycle).
    + by intros x Hx%elem_of_nil.
    + by exists l0, l'.
  - exfalso. revert Hs. apply (serialize_not_Beyond host h Hmod); try done.
    + apply NoDup_nil_2.
    + by intros x Hx%elem_of_nil.
    + cbn. lia.
Qed.

(** An instance: an object with two numbers, an array and a method. *)
Lemma getJSON_outcome_witness :
  ¬ cyclic store_sample (JObject 0%nat)
  ∧ ∃ s, getJSON example_host (JObject 0%nat) store_sample
         = (Return (JString s), store_sample).
Proof.
  destruct (getJSON_outcome example_host store_sample (JObject 0%nat))
    as [[_ Hthrow]|(Hacyclic & r & Hr & [[[Hu|Hf] _]|(_ & _ & s & ->)])];
    try discriminate.
  - apply Forall_cons. split; [|apply Forall_singleton].
    + split; [|split; [|reflexivity]].
      * intros l Hl. cbn in Hl.
        repeat (apply elem_of_cons in Hl as [Hl|Hl]; [try discriminate Hl|]).
        -- injection Hl as ->. cbn. lia.
        -- by apply elem_of_nil in Hl.
      * repeat (apply Forall_cons; split); try apply Forall_nil; try exact I.
        -- intros _. by eexists.
        -- intros _. by eexists.
    + split; [|split; [|exact I]].
      * intros l Hl. cbn in Hl.
        repeat (apply elem_of_cons in Hl as [Hl|Hl]; [try discriminate Hl|]).
        by apply elem_of_nil in Hl.
      * repeat (apply Forall_cons; split); try apply Forall_nil; exact I.
  - exact I.
  - intros l [= <-]. cbn. lia.
  - split; [done|]. by exists s.
Defined.

(** X10: [fromJSON] never changes an object that existed before the call,
    however the call ends; and when the text is malformed it throws the
    parser's error and returns no object. *)
Theorem fromJSON_leaves_existing_objects host proto json h res h' :
  fromJSON host proto json h = (res, h') →
  (∀ l o, h !! l = Some o → h' !! l = Some o)
  ∧ (∀ e, JSON_parse host json = Throw e → res = Throw e).
Proof.
  unfold fromJSON, bind, new_object, alloc, JSON_parse_value.
  set (o0 := Plain (name (constructor proto)) (initial (constructor proto))).
  destruct (JSON_parse host json) as [t|e|] eqn:Hparse.
  - destruct (materialize_extends t (h ++ [o0])) as (parsed & hn & ->).
    unfold Object_assign.
    assert (Hl : ((h ++ [o0]) ++ hn) !! length h = Some o0).
    { rewrite <- app_assoc. by apply list_lookup_middle. }
    assert (Hpre : ∀ l o, h !! l = Some o → ((h ++ [o0]) ++ hn) !! l = Some o).
    { intros l o Ho. rewrite <- app_assoc. by apply lookup_app_l_Some. }
    rewrite Hl. unfold o0 at 1. cbv iota.
    destruct (own_enumerable _ parsed) as [entries|];
      [case_bool_decide|]; cbn; intros [= <- <-]; (split; [|done]); try done.
    intros l o Ho. rewrite list_lookup_insert_ne; [by apply Hpre|].
    apply lookup_lt_Some in Ho. lia.
  - intros [= <- <-]. split.
    + intros l o Ho. by apply lookup_app_l_Some.
    + by intros e' [= ->].
  - intros [= <- <-]. split; [|done].
    intros l o Ho. by apply lookup_app_l_Some.
Qed.

(** An instance: the malformed text [{], with an object in the store. *)
Lemma fromJSON_leaves_existing_objects_witness :
  fst (fromJSON malformed_host Circle_prototype "{" store_self)
  = Throw (SyntaxError "Unexpected end of JSON input")
  ∧ snd (fromJSON malformed_host Circle_prototype "{" store_self) !! 0%nat
    = Some (Plain "Object" [("self", JObject 0%nat)]).
Proof.
  destruct (fromJSON_leaves_existing_objects malformed_host Circle_prototype "{"
              store_self
              (fst (fromJSON malformed_host Circle_prototype "{" store_self))
              (snd (fromJSON malformed_host Circle_prototype "{" store_self)))
    as [Hframe Herror].
  - reflexivity.
  - split; [by apply Herror|by apply Hframe].
Defined.

(** X11: when the text parses to something without own enumerable
    properties (a number, a boolean, [null], the empty string, an empty
    array or an empty object), [fromJSON] returns a new object of the
    template's kind with exactly the fields its constructor left on it. *)
Theorem fromJSON_of_fieldless_text host proto json t h :
  JSON_parse host json = Return t → tree_keys t = [] →
  ∃ h',
    fromJSON host proto json h = (Return (JObject (length h)), h')
    ∧ h' !! length h
      = Some (Plain (name (constructor proto)) (initial (constructor proto))).
Proof.
  intros Hparse Hkeys.
  set (o := Plain (name (constructor proto)) (initial (constructor proto))).
  destruct (materialize_fields t (h ++ [o]))
    as (parsed & hn & entries & Hrun & Hown & _ & Hk & _).
  assert (entries = []) as ->.
  { destruct entries as [|[k v] entries]; [done|].
    exfalso. apply (elem_of_nil k). rewrite <- Hkeys. apply Hk. by left. }
  assert (Hl : ((h ++ [o]) ++ hn) !! length h = Some o).
  { rewrite <- app_assoc. by apply list_lookup_middle. }
  eexists. split.
  - unfold fromJSON, bind, new_object, alloc, JSON_parse_value.
    rewrite Hparse. fold o. rewrite Hrun. unfold Object_assign.
    by rewrite Hl, Hown.
  - cbn. apply list_lookup_insert_eq. by eapply lookup_lt_Some.
Qed.

(** An instance: [fromJSON(Circle.prototype, '{}')]. *)
Lemma fromJSON_of_fieldless_text_witness :
  ∃ h',
    fromJSON example_host Circle_prototype "{}" [] = (Return (JObject 0%nat), h')
    ∧ h' !! 0%nat = Some (Plain "Circle" [("radius", JUndefined)]).
Proof.
  apply (fromJSON_of_fieldless_text example_host Circle_prototype "{}"
           (TObject []) []); reflexivity.
Defined.
End json_extras.


(** * The round trip through JSON text *)

Section data_facts.

Lemma tree_size_pos t : (1 ≤ tree_size t)%nat.
Proof. destruct t; cbn; lia. Qed.

Lemma tree_size_elem e elems :
  e ∈ elems → (tree_size e < tree_size (TArray elems))%nat.
Proof.
  change (tree_size (TArray elems))
    with (S (list_sum (map (λ e, S (tree_size e)) elems))).
  induction 1 as [e elems|e e' elems _ IH]; unfold list_sum in *; cbn [map fold_right] in *; lia.
Qed.

Lemma tree_size_member kt members :
  kt ∈ members → (tree_size kt.2 < tree_size (TObject members))%nat.
Proof.
  change (tree_size (TObject members))
    with (S (list_sum (map (λ kt, S (tree_size kt.2)) members))).
  induction 1 as [kt members|kt kt' members _ IH]; unfold list_sum in *; cbn [map fold_right] in *; lia.
Qed.

(** A value is at most one piece of data. *)
Lemma denotes_functional h t : ∀ t' v, denotes h t v → denotes h t' v → t = t'.
Proof.
  induction t as [|b|x|s|elems IH|members IH] using tree_nested_ind;
    intros t' v Ht Ht'; cbn in Ht.
  - subst v. destruct t'; cbn in Ht'; try done; by destruct Ht' as (? & ? & ? & _).
  - subst v. destruct t'; cbn in Ht'; try done; [congruence|..];
      by destruct Ht' as (? & ? & ? & _).
  - subst v. destruct t'; cbn in Ht'; try done; [congruence|..];
      by destruct Ht' as (? & ? & ? & _).
  - subst v. destruct t'; cbn in Ht'; try done; [congruence|..];
      by destruct Ht' as (? & ? & ? & _).
  - destruct Ht as (l & vs & -> & Hl & Hall).
    destruct t' as [| | | |elems'|members']; cbn in Ht'; try done;
      destruct Ht' as (l' & vs' & [= <-] & Hl' & Hall'); rewrite Hl in Hl'; [|done].
    injection Hl' as <-. f_equal. clear Hl. revert vs elems' Hall Hall'.
    induction IH as [|t elems Ht _ IHl]; intros [|v vs] [|t' elems'] H1 H2;
      cbn in H1, H2; try done.
    destruct H1 as [H1 H1'], H2 as [H2 H2']. f_equal; [by eapply Ht|by eapply IHl].
  - destruct Ht as (l & props & -> & Hl & Hall).
    destruct t' as [| | | |elems'|members']; cbn in Ht'; try done;
      destruct Ht' as (l' & props' & [= <-] & Hl' & Hall'); rewrite Hl in Hl'; [done|].
    injection Hl' as <-. f_equal. clear Hl. revert props members' Hall Hall'.
    induction IH as [|[k t] members Ht _ IHl]; intros [|[kv v] vs] [|[k' t'] members'] H1 H2;
      cbn in H1, H2; try done.
    destruct H1 as (-> & H1 & H1'), H2 as (-> & H2 & H2').
    f_equal; [f_equal; by eapply Ht|by eapply IHl].
Qed.

(** Data stays what it is when objects are added to the store. *)
Lemma denotes_extend h hn t : ∀ v, denotes h t v → denotes (h ++ hn) t v.
Proof.
  induction t as [|b|x|s|elems IH|members IH] using tree_nested_ind;
    intros v Ht; cbn in Ht |- *; try done.
  - destruct Ht as (l & vs & -> & Hl & Hall). exists l, vs.
    split; [done|]. split; [by apply lookup_app_l_Some|].
    clear Hl. revert vs Hall.
    induction IH as [|t elems Ht _ IHl]; intros [|v vs] H1; cbn in H1 |- *; try done.
    destruct H1 as [H1 H1']. split; [by apply Ht|by apply IHl].
  - destruct Ht as (l & props & -> & Hl & Hall). exists l, props.
    split; [done|]. split; [by apply lookup_app_l_Some|].
    clear Hl. revert props Hall.
    induction IH as [|[k t] members Ht _ IHl]; intros [|[k' v] vs] H1; cbn in H1 |- *; try done.
    destruct H1 as (-> & H1 & H1'). split; [done|]. split; [by apply Ht|by apply IHl].
Qed.

(** No property of a data object holds a function. *)
Lemma data_no_function h members props k :
  all2_members (denotes h) members props → lookup_prop k props ≠ Some JFunction.
Proof.
  revert props. induction members as [|[k1 t] members IH]; intros [|[k2 v] props] H;
    cbn in H; try done.
  destruct H as (-> & Ht & H). cbn. case_bool_decide; [|by apply IH].
  intros [= ->]. destruct t; cbn in Ht; try done; by destruct Ht as (? & ? & ? & _).
Qed.

End data_facts.

Section serialize_data.
Context (host : Host) (read : string → option float).

(** The serialization of data, whatever the stack, as long as the objects
    on it are data larger than the value: the text of the data. *)
Lemma serialize_data h t :
  ∀ n st v,
    denotes h t v → carried host read t →
    NoDup st → (∀ x, x ∈ st → (x < length h)%nat) →
    (∀ x, x ∈ st → ∃ t', denotes h t' (JObject x) ∧ (tree_size t < tree_size t')%nat) →
    (length h < n + length st)%nat →
    SerializeJSONProperty host n h st v = Return (Some (tree_text host t)).
Proof.
  induction t as [|b|x|s|elems IH|members IH] using tree_nested_ind;
    intros n st v Hd Hc Hnd Hst Hinv Hlen;
    (destruct n as [|n]; [pose proof (stack_bound h st Hnd Hst); lia|]);
    cbn in Hd.
  - by subst v.
  - subst v. by destruct b.
  - subst v. destruct Hc as (Hfin & s & Hs & _). cbn. by rewrite Hfin, Hs.
  - by subst v.
  - destruct Hd as (l & vs & -> & Hl & Hall).
    assert (Hout : l ∉ st).
    { intros Hin. destruct (Hinv l Hin) as (t' & Ht' & Hsz).
      assert (TArray elems = t') as <-; [|lia].
      eapply denotes_functional; [|exact Ht']. cbn. by eauto. }
    cbn [SerializeJSONProperty]. rewrite Hl, bool_decide_eq_false_2 by done.
    assert (Hvs : ∀ es ws,
              Forall (λ e, e ∈ elems) es → all2 (denotes h) es ws →
              all1 (carried host read) es →
              elements_text (map (SerializeJSONProperty host n h (l :: st)) ws)
              = Return (map (tree_text host) es)).
    { intros es. induction es as [|e es IHes]; intros [|w ws] Hin H1 H2;
        cbn in H1, H2; try done.
      destruct H1 as [H1 H1'], H2 as [H2 H2'].
      apply Forall_cons in Hin as [Hin Hin']. cbn [map elements_text].
      rewrite Forall_forall in IH. rewrite (IH e Hin n (l :: st) w); try done.
      - by rewrite (IHes ws).
      - by apply NoDup_cons.
      - intros y [->|Hy]%elem_of_cons; [by eapply lookup_lt_Some|by apply Hst].
      - intros y [->|Hy]%elem_of_cons.
        + exists (TArray elems). split; [cbn; by eauto|by apply tree_size_elem].
        + destruct (Hinv y Hy) as (t' & Ht' & Hsz). exists t'. split; [done|].
          pose proof (tree_size_elem e elems Hin). lia.
      - cbn. lia. }
    rewrite (Hvs elems vs); [done| |done|done].
    by apply Forall_forall.
  - destruct Hd as (l & props & -> & Hl & Hall).
    assert (Hout : l ∉ st).
    { intros Hin. destruct (Hinv l Hin) as (t' & Ht' & Hsz).
      assert (TObject members = t') as <-; [|lia].
      eapply denotes_functional; [|exact Ht']. cbn. by eauto. }
    cbn [SerializeJSONProperty]. rewrite Hl.
    assert (callable_toJSON props = false) as ->.
    { unfold callable_toJSON.
      pose proof (data_no_function h members props "toJSON" Hall) as Hf.
      by destruct (lookup_prop "toJSON" props) as [[]|]. }
    rewrite bool_decide_eq_false_2 by done.
    destruct Hc as [_ Hc].
    assert (Hvs : ∀ ms ps,
              Forall (λ kt, kt ∈ members) ms → all2_members (denotes h) ms ps →
              all1_members (carried host read) ms →
              members_text
                (map (λ kv, (kv.1, SerializeJSONProperty host n h (l :: st) kv.2)) ps)
              = Return (map (λ kt, QuoteJSONString kt.1 +:+ ":" +:+ tree_text host kt.2) ms)).
    { intros ms. induction ms as [|[k e] ms IHms]; intros [|[k' w] ps] Hin H1 H2;
        cbn in H1, H2; try done.
      destruct H1 as (-> & H1 & H1'), H2 as [H2 H2'].
      apply Forall_cons in Hin as [Hin Hin']. cbn [map members_text fst snd].
      rewrite Forall_forall in IH. rewrite (IH (k', e) Hin n (l :: st) w); try done.
      - by rewrite (IHms ps).
      - by apply NoDup_cons.
      - intros y [->|Hy]%elem_of_cons; [by eapply lookup_lt_Some|by apply Hst].
      - intros y [->|Hy]%elem_of_cons.
        + exists (TObject members). split; [cbn; by eauto|].
          by apply (tree_size_member (k', e)).
        + destruct (Hinv y Hy) as (t' & Ht' & Hsz). exists t'. split; [done|].
          pose proof (tree_size_member (k', e) members Hin). cbn in *. lia.
      - cbn. lia. }
    rewrite (Hvs members props); [done| |done|done].
    by apply Forall_forall.
Qed.

(** [getJSON] of data returns the text of the data. *)
Lemma getJSON_data h t v :
  denotes h t v → carried host read t →
  getJSON host v h = (Return (JString (tree_text host t)), h).
Proof.
  intros Hd Hc. unfold getJSON, JSON_stringify.
  rewrite (serialize_data h t (S (length h)) [] v); try done.
  - apply NoDup_nil_2.
  - by intros x Hx%elem_of_nil.
  - by intros x Hx%elem_of_nil.
  - cbn. lia.
Qed.

End serialize_data.

Section parse_text.
Context (host : Host) (read : string → option float).

Lemma append_cons c s r : String c s +:+ r = String c (s +:+ r).
Proof. reflexivity. Qed.

Lemma length_append s r :
  String.length (s +:+ r) = (String.length s + String.length r)%nat.
Proof. induction s as [|c s IH]; [done|]. rewrite append_cons. cbn. by rewrite IH. Qed.

Lemma number_char_start c :
  number_char c = true →
  is_ws c = false ∧ Ascii.eqb "]" c = false ∧ Ascii.eqb "034" c = false.
Proof. destruct c as [[] [] [] [] [] [] [] []]; by vm_compute. Qed.

(** A number token ends where the characters of number tokens end. *)
Lemma span_number_app s rest :
  forallb number_char (list_ascii_of_string s) = true → delimited rest →
  span number_char (s +:+ rest) = (s, rest).
Proof.
  intros Hs Hrest. induction s as [|c s IH].
  - destruct rest as [|c rest]; [done|]. cbn [delimited] in Hrest.
    change (span number_char (String c rest) = ("", String c rest)).
    cbn [span]. by rewrite Hrest.
  - cbn in Hs. apply andb_true_iff in Hs as [Hc Hs].
    rewrite append_cons. cbn [span]. by rewrite Hc, IH.
Qed.

(** Reading a quoted code unit gives the code unit. *)
Lemma parse_string_quote_code_unit c s :
  parse_string (quote_code_unit c +:+ s) = prepend c (parse_string s).
Proof. destruct c as [[] [] [] [] [] [] [] []]; reflexivity. Qed.

Lemma parse_string_quoted str rest :
  parse_string (quote_code_units str +:+ String "034" rest) = Return (str, rest).
Proof.
  induction str as [|c str IH]; [reflexivity|]. cbn [quote_code_units].
  by rewrite append_assoc, parse_string_quote_code_unit, IH.
Qed.

Lemma QuoteJSONString_append s rest :
  QuoteJSONString s +:+ rest = String "034" (quote_code_units s +:+ String "034" rest).
Proof. unfold QuoteJSONString. by rewrite append_cons, append_assoc. Qed.

(** The text of data starts with a character that is neither white space
    nor a closing bracket. *)
Lemma tree_text_head t :
  carried host read t →
  ∃ c s, tree_text host t = String c s ∧ is_ws c = false ∧ Ascii.eqb "]" c = false.
Proof.
  destruct t as [|[|]|x|s|elems|members]; intros Hc;
    try (by eexists _, _; split; [reflexivity|]).
  destruct Hc as (_ & s & Hs & Hall & Hnum & _). cbn. rewrite Hs. cbn.
  destruct s as [|c s]; [done|]. cbn in Hall. apply andb_true_iff in Hall as [Hc _].
  exists c, s. split; [done|]. by destruct (number_char_start c Hc) as (? & ? & _).
Qed.

(** [String.concat] on a list that goes on. *)
Lemma concat_cons_cons sep x y l :
  String.concat sep (x :: y :: l) = x +:+ sep +:+ String.concat sep (y :: l).
Proof. reflexivity. Qed.

Lemma parse_value_number f c s rest x :
  forallb number_char (list_ascii_of_string (String c s)) = true →
  json_number (String c s) = true → read (String c s) = Some x → delimited rest →
  parse_value read (S f) (String c s +:+ rest) = Return (TNumber x, rest).
Proof.
  intros Hall Hnum Hread Hrest.
  pose proof Hall as Hc. cbn [list_ascii_of_string forallb] in Hc.
  apply andb_true_iff in Hc as [Hc _].
  destruct (number_char_start c Hc) as (Hws & _).
  transitivity
    (match skip_ws (String c (s +:+ rest)) with
     | EmptyString => Throw json_syntax_error
     | String c' s' =>
         if number_char c' then
           let '(token, rest') := span number_char (String c' s') in
           if json_number token then
             match read token with
             | Some x => Return (TNumber x, rest')
             | None => Beyond
             end
           else Throw json_syntax_error
         else Beyond
     end).
  - cbn [skip_ws]. rewrite Hws, Hc. rewrite append_cons.
    cbn [parse_value skip_ws]. by rewrite Hws, Hc.
  - cbn [skip_ws]. rewrite Hws, Hc.
    change (String c (s +:+ rest)) with (String c s +:+ rest).
    rewrite span_number_app by done. by rewrite Hnum, Hread.
Qed.

Lemma parse_value_array f c s :
  is_ws c = false → Ascii.eqb "]" c = false →
  parse_value read (S f) (String "[" (String c s))
  = then_ (parse_elements read f (String c s)) (λ '(ts, rest), Return (TArray ts, rest)).
Proof.
  intros Hws Hc.
  transitivity
    (match starts_with "]" (skip_ws (String c s)) with
     | Some rest => Return (TArray [], rest)
     | None =>
         then_ (parse_elements read f (String c s))
           (λ '(ts, rest), Return (TArray ts, rest))
     end); [reflexivity|].
  cbn [skip_ws]. rewrite Hws. cbn [starts_with]. by rewrite Hc.
Qed.

(** The grammar reads the text of data back as the data. *)
Lemma parse_tree_text t :
  ∀ f rest,
    carried host read t → (tree_size t ≤ f)%nat → delimited rest →
    parse_value read f (tree_text host t +:+ rest) = Return (t, rest).
Proof.
  induction t as [|b|x|s|elems IH|members IH] using tree_nested_ind;
    intros f rest Hc Hf Hrest;
    (destruct f as [|f];
     [match type of Hf with
      | (tree_size ?t ≤ _)%nat => pose proof (tree_size_pos t)
      end; lia|]).
  - reflexivity.
  - by destruct b.
  - destruct Hc as (_ & s & Hs & Hall & Hnum & Hread).
    cbn [tree_text]. rewrite Hs. cbn [default].
    destruct s as [|c s]; [done|]. by apply parse_value_number.
  - cbn [tree_text]. rewrite QuoteJSONString_append.
    transitivity
      (then_ (parse_string (quote_code_units s +:+ String "034" rest))
         (λ '(str, rest), Return (TString str, rest))); [reflexivity|].
    by rewrite parse_string_quoted.
  - assert (Hes : ∀ es g,
              es ≠ [] → Forall (λ e, e ∈ elems) es →
              all1 (carried host read) es →
              (list_sum (map (λ e, S (tree_size e)) es) ≤ g)%nat →
              parse_elements read g
                (String.concat "," (map (tree_text host) es) +:+ String "]" rest)
              = Return (es, rest)).
    { intros es. induction es as [|e es IHes]; intros g Hne Hin Hce Hg; [done|].
      apply Forall_cons in Hin as [Hin Hin']. destruct Hce as [Hce Hce'].
      unfold list_sum in Hg. cbn [map fold_right] in Hg. fold (list_sum (map (λ e, S (tree_size e)) es)) in Hg.
      destruct g as [|g]; [lia|].
      rewrite Forall_forall in IH.
      destruct es as [|e' es].
      - change (then_ (parse_value read g (tree_text host e +:+ String "]" rest))
                  (λ '(t, rest0),
                     match starts_with "," (skip_ws rest0) with
                     | Some rest' =>
                         then_ (parse_elements read g rest')
                           (λ '(ts, rest''), Return (t :: ts, rest''))
                     | None =>
                         match starts_with "]" (skip_ws rest0) with
                         | Some rest' => Return ([t], rest')
                         | None => Throw json_syntax_error
                         end
                     end) = Return ([e], rest)).
        rewrite (IH e Hin g); [reflexivity|done|lia|done].
      - cbn [map]. rewrite concat_cons_cons, !append_assoc.
        change ("," +:+ ?a) with (String "," a).
        change (then_ (parse_value read g
                         (tree_text host e
                          +:+ String ","
                                (String.concat "," (map (tree_text host) (e' :: es))
                                 +:+ String "]" rest)))
                  (λ '(t, rest0),
                     match starts_with "," (skip_ws rest0) with
                     | Some rest' =>
                         then_ (parse_elements read g rest')
                           (λ '(ts, rest''), Return (t :: ts, rest''))
                     | None =>
                         match starts_with "]" (skip_ws rest0) with
                         | Some rest' => Return ([t], rest')
                         | None => Throw json_syntax_error
                         end
                     end) = Return (e :: e' :: es, rest)).
        rewrite (IH e Hin g); [|done|lia|done].
        change (then_ (parse_elements read g
                         (String.concat "," (map (tree_text host) (e' :: es))
                          +:+ String "]" rest))
                  (λ '(ts, rest''), Return (e :: ts, rest''))
                = Return (e :: e' :: es, rest)).
        rewrite IHes; [reflexivity|done|done|done|lia]. }
    cbn [tree_text]. change ("[" +:+ ?a) with (String "[" a).
    rewrite append_cons, append_assoc.
    change ("]" +:+ rest) with (String "]" rest).
    destruct elems as [|e elems]; [reflexivity|].
    assert (He : carried host read e) by apply Hc.
    destruct (tree_text_head e He) as (c & s & Hhead & Hws & Hclose).
    assert (Hstart : ∃ s', String.concat "," (map (tree_text host) (e :: elems))
                           +:+ String "]" rest = String c s').
    { destruct elems as [|e' elems].
      - cbn [map String.concat]. rewrite Hhead. by eexists.
      - cbn [map]. rewrite concat_cons_cons, Hhead. by eexists. }
    destruct Hstart as [s' Hs']. rewrite Hs'.
    rewrite parse_value_array by done. rewrite <- Hs'.
    rewrite Hes; [reflexivity|done| |done|].
    + apply Forall_forall. by intros.
    + change (tree_size (TArray (e :: elems)))
        with (S (list_sum (map (λ e, S (tree_size e)) (e :: elems)))) in Hf. lia.
  - assert (Hms : ∀ ms g,
              ms ≠ [] → Forall (λ kt, kt ∈ members) ms →
              all1_members (carried host read) ms →
              (list_sum (map (λ kt, S (tree_size kt.2)) ms) ≤ g)%nat →
              parse_members read g
                (String.concat ","
                   (map (λ kt, QuoteJSONString kt.1 +:+ ":" +:+ tree_text host kt.2) ms)
                 +:+ String "}" rest)
              = Return (ms, rest)).
    { intros ms. induction ms as [|[k e] ms IHms]; intros g Hne Hin Hce Hg; [done|].
      apply Forall_cons in Hin as [Hin Hin']. destruct Hce as [Hce Hce'].
      unfold list_sum in Hg. cbn [map fold_right snd] in Hg.
      fold (list_sum (map (λ kt : string * tree, S (tree_size kt.2)) ms)) in Hg.
      destruct g as [|g]; [lia|].
      rewrite Forall_forall in IH.
      destruct ms as [|kt' ms].
      - cbn [map String.concat fst snd].
        rewrite !append_assoc, QuoteJSONString_append.
        change (":" +:+ ?a) with (String ":" a).
        change (then_ (parse_string
                         (quote_code_units k
                          +:+ String "034"
                                (String ":" (tree_text host e +:+ String "}" rest))))
                  (λ '(k0, rest1),
                     match starts_with ":" (skip_ws rest1) with
                     | None => Throw json_syntax_error
                     | Some rest2 =>
                         then_ (parse_value read g rest2) (λ '(t, rest0),
                           match starts_with "," (skip_ws rest0) with
                           | Some rest' =>
                               then_ (parse_members read g rest')
                                 (λ '(ms, rest''), Return ((k0, t) :: ms, rest''))
                           | None =>
                               match starts_with "}" (skip_ws rest0) with
                               | Some rest' => Return ([(k0, t)], rest')
                               | None => Throw json_syntax_error
                               end
                           end)
                     end) = Return ([(k, e)], rest)).
        rewrite parse_string_quoted.
        change (then_ (parse_value read g (tree_text host e +:+ String "}" rest))
                  (λ '(t, rest0),
                     match starts_with "," (skip_ws rest0) with
                     | Some rest' =>
                         then_ (parse_members read g rest')
                           (λ '(ms, rest''), Return ((k, t) :: ms, rest''))
                     | None =>
                         match starts_with "}" (skip_ws rest0) with
                         | Some rest' => Return ([(k, t)], rest')
                         | None => Throw json_syntax_error
                         end
                     end) = Return ([(k, e)], rest)).
        rewrite (IH (k, e) Hin g); [reflexivity|done|cbn; lia|done].
      - cbn [map]. rewrite concat_cons_cons. cbn [fst snd].
        rewrite !append_assoc, QuoteJSONString_append.
        change (":" +:+ ?a) with (String ":" a).
        change ("," +:+ ?a) with (String "," a).
        set (tail := String.concat "," _ +:+ String "}" rest).
        change (then_ (parse_string
                         (quote_code_units k
                          +:+ String "034"
                                (String ":" (tree_text host e +:+ String "," tail))))
                  (λ '(k0, rest1),
                     match starts_with ":" (skip_ws rest1) with
                     | None => Throw json_syntax_error
                     | Some rest2 =>
                         then_ (parse_value read g rest2) (λ '(t, rest0),
                           match starts_with "," (skip_ws rest0) with
                           | Some rest' =>
                               then_ (parse_members read g rest')
                                 (λ '(ms, rest''), Return ((k0, t) :: ms, rest''))
                           | None =>
                               match starts_with "}" (skip_ws rest0) with
                               | Some rest' => Return ([(k0, t)], rest')
                               | None => Throw json_syntax_error
                               end
                           end)
                     end) = Return ((k, e) :: kt' :: ms, rest)).
        rewrite parse_string_quoted.
        change (then_ (parse_value read g (tree_text host e +:+ String "," tail))
                  (λ '(t, rest0),
                     match starts_with "," (skip_ws rest0) with
                     | Some rest' =>
                         then_ (parse_members read g rest')
                           (λ '(ms, rest''), Return ((k, t) :: ms, rest''))
                     | None =>
                         match starts_with "}" (skip_ws rest0) with
                         | Some rest' => Return ([(k, t)], rest')
                         | None => Throw json_syntax_error
                         end
                     end) = Return ((k, e) :: kt' :: ms, rest)).
        rewrite (IH (k, e) Hin g); [|done|cbn; lia|done].
        change (then_ (parse_members read g tail)
                  (λ '(ms0, rest''), Return ((k, e) :: ms0, rest''))
                = Return ((k, e) :: kt' :: ms, rest)).
        unfold tail. rewrite IHms; [reflexivity|done|done|done|lia]. }
    cbn [tree_text]. change ("{" +:+ ?a) with (String "{" a).
    rewrite append_cons, append_assoc.
    change ("}" +:+ rest) with (String "}" rest).
    destruct members as [|[k e] members]; [reflexivity|].
    destruct Hc as [_ Hc].
    assert (Hstart : ∃ s',
              String.concat ","
                (map (λ kt, QuoteJSONString kt.1 +:+ ":" +:+ tree_text host kt.2)
                     ((k, e) :: members))
              +:+ String "}" rest = String "034" s').
    { destruct members as [|kt' members].
      - cbn [map String.concat]. by eexists.
      - cbn [map]. rewrite concat_cons_cons. by eexists. }
    destruct Hstart as [s' Hs']. rewrite Hs'.
    transitivity
      (then_ (parse_members read f (String "034" s'))
         (λ '(ms, rest), Return (TObject ms, rest))); [reflexivity|].
    rewrite <- Hs'.
    rewrite Hms; [reflexivity|done| |done|].
    + apply Forall_forall. by intros.
    + change (tree_size (TObject ((k, e) :: members)))
        with (S (list_sum (map (λ kt, S (tree_size kt.2)) ((k, e) :: members)))) in Hf.
      lia.
Qed.

End parse_text.

Section text_size.
Context (host : Host) (read : string → option float).

(** The text of data has at least half as many characters as the data has
    nodes. *)
Lemma tree_size_text t :
  carried host read t → (tree_size t ≤ 2 * String.length (tree_text host t))%nat.
Proof.
  induction t as [|b|x|s|elems IH|members IH] using tree_nested_ind; intros Hc.
  - cbn. lia.
  - destruct b; cbn; lia.
  - destruct Hc as (_ & s & Hs & _ & Hnum & _). cbn [tree_text tree_size]. rewrite Hs.
    destruct s as [|c s]; [done|]. cbn. lia.
  - cbn. lia.
  - assert (Hes : ∀ es,
              Forall (λ e, e ∈ elems) es → all1 (carried host read) es →
              (list_sum (map (λ e, S (tree_size e)) es)
               ≤ 2 * String.length (String.concat "," (map (tree_text host) es)) + 1)%nat).
    { rewrite Forall_forall in IH.
      intros es. induction es as [|e es IHes]; intros Hin Hce; [cbn; lia|].
      apply Forall_cons in Hin as [Hin Hin']. destruct Hce as [Hce Hce'].
      specialize (IH e Hin Hce). specialize (IHes Hin' Hce').
      unfold list_sum in *. cbn [map fold_right] in *.
      destruct es as [|e' es].
      - cbn [map String.concat fold_right]. lia.
      - cbn [map] in *. rewrite concat_cons_cons, !length_append.
        change (String.length ",") with 1%nat. lia. }
    change (tree_size (TArray elems))
      with (S (list_sum (map (λ e, S (tree_size e)) elems))).
    cbn [tree_text]. rewrite !length_append.
    change (String.length "[") with 1%nat. change (String.length "]") with 1%nat.
    specialize (Hes elems). rewrite Forall_forall in Hes.
    specialize (Hes (λ _ H, H) Hc). lia.
  - destruct Hc as [_ Hc].
    assert (Hms : ∀ ms,
              Forall (λ kt, kt ∈ members) ms → all1_members (carried host read) ms →
              (list_sum (map (λ kt, S (tree_size kt.2)) ms)
               ≤ 2 * String.length
                       (String.concat ","
                          (map (λ kt, QuoteJSONString kt.1 +:+ ":" +:+ tree_text host kt.2)
                               ms)) + 1)%nat).
    { rewrite Forall_forall in IH.
      intros ms. induction ms as [|[k e] ms IHms]; intros Hin Hce; [cbn; lia|].
      apply Forall_cons in Hin as [Hin Hin']. destruct Hce as [Hce Hce'].
      specialize (IH (k, e) Hin Hce). specialize (IHms Hin' Hce').
      unfold list_sum in *. cbn [map fold_right fst snd] in *.
      destruct ms as [|kt' ms].
      - cbn [map String.concat fold_right]. rewrite !length_append. lia.
      - cbn [map] in *. rewrite concat_cons_cons, !length_append.
        change (String.length ",") with 1%nat. lia. }
    change (tree_size (TObject members))
      with (S (list_sum (map (λ kt, S (tree_size kt.2)) members))).
    cbn [tree_text]. rewrite !length_append.
    change (String.length "{") with 1%nat. change (String.length "}") with 1%nat.
    specialize (Hms members). rewrite Forall_forall in Hms.
    specialize (Hms (λ _ H, H) Hc). lia.
Qed.

(** [JSON.parse], by the grammar, reads the text of data as the data. *)
Lemma JSON_parse_tree_text t :
  carried host read t → JSON_parse_text read (tree_text host t) = Return t.
Proof.
  intros Hc. unfold JSON_parse_text.
  pose proof (tree_size_text t Hc) as Hsize.
  pose proof (parse_tree_text host read t
                (2 * String.length (tree_text host t) + 2) "" Hc) as Hp.
  rewrite append_empty_r in Hp. rewrite Hp; [done|lia|done].
Qed.

End text_size.

Section materialize_data.

Lemma insert_index_same_keys n k v v' props :
  ∀ props', props.*1 = props'.*1 →
    (insert_index n k v props).*1 = (insert_index n k v' props').*1.
Proof.
  induction props as [|[k1 v1] props IH]; intros [|[k2 v2] props'] Hk;
    cbn in Hk; try done.
  injection Hk as -> Hk. cbn [insert_index].
  destruct (array_index k2) as [n'|]; [destruct (n' <? n)%N|]; cbn;
    f_equal; try done; try (by apply IH); by f_equal.
Qed.

Lemma set_prop_same_keys k v v' props props' :
  props.*1 = props'.*1 → (set_prop k v props).*1 = (set_prop k v' props').*1.
Proof.
  intros Hk. unfold set_prop.
  destruct (lookup_prop k props) as [w|] eqn:Hl;
    destruct (lookup_prop k props') as [w'|] eqn:Hl'.
  - rewrite !update_prop_keys; [done|by rewrite Hl'|by rewrite Hl].
  - apply lookup_prop_None in Hl'. rewrite <- Hk in Hl'.
    apply lookup_prop_None in Hl'. congruence.
  - apply lookup_prop_None in Hl. rewrite Hk in Hl.
    apply lookup_prop_None in Hl. congruence.
  - destruct (array_index k); [by apply insert_index_same_keys|].
    rewrite !fmap_app. by rewrite Hk.
Qed.

(** The order in which written properties are enumerated depends on their
    keys only. *)
Lemma set_props_same_keys entries :
  ∀ entries' props props',
    entries.*1 = entries'.*1 → props.*1 = props'.*1 →
    (set_props entries props).*1 = (set_props entries' props').*1.
Proof.
  unfold set_props.
  induction entries as [|[k v] entries IH]; intros [|[k' v'] entries'] props props' He Hp;
    cbn in He; try done.
  injection He as -> He. cbn [foldl fst snd]. apply IH; [done|].
  by apply set_prop_same_keys.
Qed.

(** Two lists of properties with the same distinct keys in the same order
    and the same value under every key are the same list. *)
Lemma props_ext (l : list (string * jsval)) :
  ∀ l', l.*1 = l'.*1 → NoDup l.*1 →
    (∀ k, lookup_prop k l = lookup_prop k l') → l = l'.
Proof.
  induction l as [|[k v] l IH]; intros [|[k' v'] l'] Hk Hnd Hlook; cbn in Hk; try done.
  injection Hk as -> Hk. cbn in Hnd. apply NoDup_cons in Hnd as [Hnot Hnd].
  pose proof (Hlook k') as Hv. cbn in Hv. rewrite !bool_decide_eq_true_2 in Hv by done.
  injection Hv as ->. f_equal. apply IH; [done|done|].
  intros k. destruct (decide (k' = k)) as [<-|Hne].
  - pose proof Hnot as Hnot'. rewrite Hk in Hnot'.
    apply lookup_prop_None in Hnot, Hnot'. congruence.
  - specialize (Hlook k). cbn in Hlook. by rewrite !bool_decide_eq_false_2 in Hlook by done.
Qed.

(** Members whose keys are in enumeration order become the properties of
    their object as they stand. *)
Lemma enumerated_set_props kvs : enumerated kvs.*1 → set_props kvs [] = kvs.
Proof.
  unfold enumerated. intros Hen.
  assert (Hkeys : (set_props kvs []).*1 = kvs.*1).
  { etrans; [|exact Hen]. apply set_props_same_keys; [|done].
    rewrite <- list_fmap_compose. clear Hen.
    induction kvs as [|[k v] kvs IH]; [done|]. cbn. by rewrite <- IH. }
  apply props_ext; [done| |].
  - apply set_props_NoDup, NoDup_nil_2.
  - intros k. rewrite lookup_set_props.
    + by destruct (lookup_prop k kvs).
    + rewrite <- Hkeys. apply set_props_NoDup, NoDup_nil_2.
Qed.

Lemma all2_members_keys h members kvs :
  all2_members (denotes h) members kvs → kvs.*1 = members.*1.
Proof.
  revert kvs. induction members as [|[k t] members IH]; intros [|[k' v] kvs] H;
    cbn in H; try done.
  destruct H as (-> & _ & H). cbn. f_equal. by apply IH.
Qed.

Lemma all2_denotes_extend h hn elems :
  ∀ vs, all2 (denotes h) elems vs → all2 (denotes (h ++ hn)) elems vs.
Proof.
  induction elems as [|t elems IH]; intros [|v vs] H; cbn in H |- *; try done.
  destruct H as [H H']. split; [by apply denotes_extend|by apply IH].
Qed.

Lemma all2_members_denotes_extend h hn members :
  ∀ kvs, all2_members (denotes h) members kvs →
    all2_members (denotes (h ++ hn)) members kvs.
Proof.
  induction members as [|[k t] members IH]; intros [|[k' v] kvs] H; cbn in H |- *; try done.
  destruct H as (-> & H & H'). split; [done|]. split; [by apply denotes_extend|by apply IH].
Qed.

(** What [materialize] allocates for data whose keys are in enumeration
    order is the data. *)
Lemma materialize_denotes host read t :
  carried host read t →
  ∀ h, ∃ v hn, materialize t h = (Return v, h ++ hn) ∧ denotes (h ++ hn) t v.
Proof.
  induction t as [|b|x|s|elems IH|members IH] using tree_nested_ind; intros Hc h;
    try (by eexists _, []; rewrite app_nil_r).
  - assert (Hall : ∀ h, ∃ vs hn,
              materialize_elements materialize elems h = (Return vs, h ++ hn)
              ∧ all2 (denotes (h ++ hn)) elems vs).
    { clear h. cbn [carried] in Hc. revert Hc.
      induction IH as [|t elems Ht _ IHl]; intros Hc h.
      - by eexists [], []; rewrite app_nil_r.
      - destruct Hc as [Hc Hc']. cbn. unfold bind.
        destruct (Ht Hc h) as (v & hn1 & -> & Hv).
        destruct (IHl Hc' (h ++ hn1)) as (vs & hn2 & -> & Hvs).
        eexists _, (hn1 ++ hn2). rewrite app_assoc. split; [done|].
        split; [by apply denotes_extend|done]. }
    cbn [materialize]. unfold bind, alloc. destruct (Hall h) as (vs & hn & -> & Hvs).
    eexists _, (hn ++ [_]). rewrite app_assoc. split; [done|].
    cbn [denotes]. eexists _, vs. split; [done|].
    split; [by rewrite list_lookup_middle|by apply all2_denotes_extend].
  - destruct Hc as [Hen Hc].
    assert (Hall : ∀ h, ∃ kvs hn,
              materialize_members materialize members h = (Return kvs, h ++ hn)
              ∧ all2_members (denotes (h ++ hn)) members kvs).
    { clear h Hen. revert Hc.
      induction IH as [|[k t] members Ht _ IHl]; intros Hc h.
      - by eexists [], []; rewrite app_nil_r.
      - destruct Hc as [Hc Hc']. cbn in Ht |- *. unfold bind.
        destruct (Ht Hc h) as (v & hn1 & -> & Hv).
        destruct (IHl Hc' (h ++ hn1)) as (kvs & hn2 & -> & Hkvs).
        eexists _, (hn1 ++ hn2). rewrite app_assoc. split; [done|].
        split; [done|]. split; [by apply denotes_extend|done]. }
    cbn [materialize]. unfold bind, alloc. destruct (Hall h) as (kvs & hn & -> & Hkvs).
    eexists _, (hn ++ [_]). rewrite app_assoc. split; [done|].
    rewrite enumerated_set_props by by rewrite (all2_members_keys _ _ _ Hkvs).
    cbn [denotes]. eexists _, kvs. split; [done|].
    split; [by rewrite list_lookup_middle|by apply all2_members_denotes_extend].
Qed.

End materialize_data.

(** * The claim about [getJSON] followed by [JSON.parse] *)

Section round_trip_claim.

(** C8, as stated, fails: [NaN] is a number, [getJSON] writes it as the
    text [null], and [JSON.parse] reads that text as [null], which is not
    [NaN] and is no data that [NaN] is. *)
Lemma getJSON_of_NaN_reads_back_null :
  denotes [] (TNumber nan) (JNumber nan)
  ∧ getJSON grammar_host (JNumber nan) [] = (Return (JString "null"), [])
  ∧ JSON_parse_value grammar_host "null" [] = (Return JNull, [])
  ∧ JNull ≠ JNumber nan
  ∧ (∀ t, denotes [] t (JNumber nan) → ¬ denotes [] t JNull).
Proof.
  split; [reflexivity|]. split; [reflexivity|]. split; [reflexivity|].
  split; [discriminate|].
  intros t Ht Hnull. destruct t; cbn in Ht, Hnull; try discriminate;
    by destruct Ht as (? & ? & ? & _).
Qed.

(** C8, amended: let the value [v] be data [t], that is, made of numbers,
    strings, booleans, [null], arrays and plain objects only, and so
    without a cycle; let every number in it be finite and be read back by
    the decoder from its printed text as the same number, and let the
    store list the properties of every object in the order in which the
    engine enumerates them.  Then [getJSON] returns a text, and
    [JSON.parse] of that text, by the JSON grammar, returns a value that
    is the same data [t] as [v], in new objects next to those of the
    store. *)
Theorem getJSON_then_parse print read h v t :
  denotes h t v → carried (grammar_engine print read) read t →
  ∃ s hn v',
    getJSON (grammar_engine print read) v h = (Return (JString s), h)
    ∧ JSON_parse_value (grammar_engine print read) s h = (Return v', h ++ hn)
    ∧ denotes (h ++ hn) t v'
    ∧ denotes (h ++ hn) t v.
Proof.
  intros Hd Hc.
  destruct (materialize_denotes _ _ t Hc h) as (v' & hn & Hrun & Hv').
  exists (tree_text (grammar_engine print read) t), hn, v'.
  split; [by eapply getJSON_data|].
  split; [|split; [done|by apply denotes_extend]].
  unfold JSON_parse_value. cbn [JSON_parse grammar_engine].
  by rewrite (JSON_parse_tree_text _ _ t Hc).
Qed.

Lemma getJSON_then_parse_witness :
  ∃ s hn v',
    getJSON grammar_host (JObject 0%nat) store_data = (Return (JString s), store_data)
    ∧ JSON_parse_value grammar_host s store_data = (Return v', store_data ++ hn)
    ∧ denotes (store_data ++ hn) tree_data v'
    ∧ denotes (store_data ++ hn) tree_data (JObject 0%nat).
Proof.
  apply (getJSON_then_parse integral_text integral_read store_data
           (JObject 0%nat) tree_data).
  - exists 0%nat, [("width", JNumber 10%float); ("tags", JObject 1%nat);
                   ("inner", JObject 2%nat)].
    split; [reflexivity|]. split; [reflexivity|].
    split; [reflexivity|]. split; [reflexivity|].
    split; [reflexivity|]. split.
    + exists 1%nat, [JString "a"; JNull; JBoolean true].
      split; [reflexivity|]. split; [reflexivity|].
      split; [reflexivity|]. split; [reflexivity|]. split; [reflexivity|exact I].
    + split; [reflexivity|]. split; [|exact I].
      exists 2%nat, []. split; [reflexivity|]. split; [reflexivity|exact I].
  - split; [reflexivity|]. split.
    + split; [reflexivity|]. exists "10".
      split; [reflexivity|]. split; [reflexivity|]. split; reflexivity.
    + split; [repeat split|].
      split; [|exact I]. split; [reflexivity|exact I].
Defined.

End round_trip_claim.
